(** * The build-time content pipeline of the site

    A shallow embedding of the search-index builder ([createConfig],
    [generateStorkIndex]), of the projects page ([getStaticProps],
    [Projects]) as Next.js serves it, of the tag pages and the home page,
    of the loader, feed and statistics cache the specification describes,
    and of two functions listed in the posts: [find_seam] and the redaction
    hook.

    Node's synchronous file-system and child-process calls are embedded in a
    state-and-exception monad over a world made of a file system and the
    trace of effects performed so far. *)

From Stdlib Require Import ZArith List Ascii String Lia Permutation Sorted.
From stdpp Require Import base option list gmap strings sorting pretty.

Local Open Scope Z_scope.

(** ** JavaScript strings *)

Module JS.

(** The two characters that the template literals of the source contain and
    that are spelled here by their codes: the double quote and the newline. *)
Definition dq : string := String "034"%char EmptyString.
Definition nl : string := String "010"%char EmptyString.

Fixpoint drop (n : nat) (s : string) : string :=
  match n, s with
  | O, _ => s
  | S n', String _ s' => drop n' s'
  | S _, EmptyString => EmptyString
  end.

(** [String.prototype.replace(pat, rep)] with a string pattern: the FIRST
    occurrence of [pat] is replaced, nothing else.  ([rep] is taken
    literally; the source passes the empty string.) *)
Fixpoint replace (pat rep s : string) : string :=
  if String.prefix pat s then rep +:+ drop (String.length pat) s
  else match s with
       | EmptyString => EmptyString
       | String c s' => String c (replace pat rep s')
       end.

(** [String.prototype.endsWith] and [String.prototype.includes]. *)
Fixpoint includes (pat s : string) : bool :=
  if String.prefix pat s then true
  else match s with
       | EmptyString => false
       | String _ s' => includes pat s'
       end.

Fixpoint endsWith (pat s : string) : bool :=
  if String.eqb pat s then true
  else match s with
       | EmptyString => false
       | String _ s' => endsWith pat s'
       end.

(** The values a parsed frontmatter block holds.  Numbers are the
    integer-valued ones, which a template literal prints in plain decimal. *)
#[warnings="-register-all"]
Inductive value : Type :=
  | Undefined
  | Null
  | Bool (b : bool)
  | Num (z : Z)
  | Str (s : string)
  | Arr (items : list value)
  | Obj.

(** [Array.prototype.join(",")] over already converted items. *)
Fixpoint join (parts : list string) : string :=
  match parts with
  | [] => EmptyString
  | [p] => p
  | p :: rest => p +:+ "," +:+ join rest
  end.

(** ToString, as applied by the substitution of a template literal.
    Inside an array, [null] and [undefined] print as the empty string. *)
Fixpoint toString (v : value) : string :=
  match v with
  | Undefined => "undefined"
  | Null => "null"
  | Bool true => "true"
  | Bool false => "false"
  | Num z => pretty z
  | Str s => s
  | Arr items =>
      join (List.map (fun i => match i with
                               | Undefined | Null => EmptyString
                               | _ => toString i
                               end) items)
  | Obj => "[object Object]"
  end.

(** Property access on a plain object: a missing key reads [undefined]. *)
Definition get (o : gmap string value) (k : string) : value :=
  default Undefined (o !! k).

End JS.

(** ** The world: file system, errors, effects *)

Inductive node : Type :=
  | File (contents : string)
  | Dir (names : list string).

(** What the calls of the source can throw. *)
Inductive exn : Type :=
  | ENOENT (path : string)
  | ENOTDIR (path : string)
  | EISDIR (path : string)
  | YAMLException (reason : string)
  | SpawnError (code : string)
  | ExecError (status : Z) (stdout stderr : string).

Inductive event : Type :=
  | EvReaddir (path : string)
  | EvReadFile (path : string)
  | EvWriteFile (path contents : string)
  | EvExec (command : string)
  | EvStderr (text : string)
  | EvConsoleError (e : exn).

Record World : Type := mkWorld {
  fs : gmap string node;
  trace : list event
}.

Inductive result (A : Type) : Type :=
  | Ok (a : A)
  | Throw (e : exn).
Arguments Ok {A} a.
Arguments Throw {A} e.

(** A computation reads and changes the world and either returns or throws;
    the effects performed before a throw stay performed. *)
Definition M (A : Type) : Type := World -> result A * World.

Definition ret {A} (a : A) : M A := fun w => (Ok a, w).
Definition throw {A} (e : exn) : M A := fun w => (Throw e, w).
Definition bind {A B} (m : M A) (k : A -> M B) : M B :=
  fun w => match m w with
           | (Ok a, w') => k a w'
           | (Throw e, w') => (Throw e, w')
           end.
Definition try_catch {A} (m : M A) (handler : exn -> M A) : M A :=
  fun w => match m w with
           | (Ok a, w') => (Ok a, w')
           | (Throw e, w') => handler e w'
           end.
Definition emit (ev : event) : M unit :=
  fun w => (Ok tt, mkWorld (fs w) (trace w ++ [ev])).

Declare Scope js_scope.
Delimit Scope js_scope with js.
Notation "x <- m ;; k" := (bind m (fun x => k))
  (at level 100, m at next level, right associativity) : js_scope.
Notation "m ;;; k" := (bind m (fun _ => k))
  (at level 100, right associativity) : js_scope.

(** [fs.readdirSync], [fs.readFileSync(_, "utf8")], [fs.writeFileSync]. *)
Definition readdirSync (p : string) : M (list string) :=
  (emit (EvReaddir p) ;;;
   fun w => match fs w !! p with
            | Some (Dir names) => (Ok names, w)
            | Some (File _) => (Throw (ENOTDIR p), w)
            | None => (Throw (ENOENT p), w)
            end)%js.

Definition readFileSync (p : string) : M string :=
  (emit (EvReadFile p) ;;;
   fun w => match fs w !! p with
            | Some (File c) => (Ok c, w)
            | Some (Dir _) => (Throw (EISDIR p), w)
            | None => (Throw (ENOENT p), w)
            end)%js.

Definition writeFileSync (p c : string) : M unit :=
  (emit (EvWriteFile p c) ;;;
   fun w => match fs w !! p with
            | Some (Dir _) => (Throw (EISDIR p), w)
            | _ => (Ok tt, mkWorld (<[p := File c]> (fs w)) (trace w))
            end)%js.

(** [console.error]. *)
Definition console_error (e : exn) : M unit := emit (EvConsoleError e).

(** How a child process ends: it could not be started, or it ran, left the
    file system in some state and exited with a status. *)
Inductive ExecOutcome : Type :=
  | SpawnFailed (code : string)
  | Exited (status : Z) (stdout stderr : string) (fs' : gmap string node).

(** What gray-matter's [matter] returns. *)
Record GrayMatterFile : Type := mkMatter {
  data : gmap string JS.value;
  content : string
}.

(** One element of the [files] list of the indexer configuration. *)
Record Entry : Type := mkEntry {
  path : string;
  url : string;
  title : string
}.

(** What the program takes from its host: the working directory, Node's
    [path.join] (with two arguments and with one), gray-matter's [matter],
    and the behaviour of the executables a command can start. *)
Record Host : Type := mkHost {
  cwd : string;
  path_join : string -> string -> string;
  path_join1 : string -> string;
  matter : string -> result GrayMatterFile;
  run : string -> gmap string node -> ExecOutcome
}.

Section Stork.

Context (host : Host).

(** [child_process.execSync(command, callback)].  [execSync] takes options,
    not a callback: a function in that place is dropped, so the callback of
    the source never runs.  The child's captured stderr is forwarded to the
    parent's; a spawn error or a non-zero status is thrown; otherwise stdout
    is returned. *)
Definition execSync (command : string) : M string :=
  (emit (EvExec command) ;;;
   fun w => match run host command (fs w) with
            | SpawnFailed code => (Throw (SpawnError code), w)
            | Exited status out err fs' =>
                let w' := mkWorld fs' (trace w ++ [EvStderr err]) in
                if status =? 0 then (Ok out, w')
                else (Throw (ExecError status out err), w')
            end)%js.

Definition lift {A} (r : result A) : M A :=
  match r with Ok a => ret a | Throw e => throw e end.

(** [const postsDirectory = path.join(process.cwd(), "posts")] *)
Definition postsDirectory : string := path_join host (cwd host) "posts".

Definition configPath : string := path_join host (cwd host) "stork-posts.toml".
Definition storkCommand : string := path_join host (cwd host) "stork.sh".

Definition configHeader : string :=
  JS.nl +:+ "[input]" +:+ JS.nl
  +:+ "base_directory = " +:+ JS.dq +:+ "posts" +:+ JS.dq +:+ JS.nl
  +:+ "url_prefix = " +:+ JS.dq +:+ "https://healeycodes.com/" +:+ JS.dq +:+ JS.nl
  +:+ "frontmatter_handling = " +:+ JS.dq +:+ "Omit" +:+ JS.dq +:+ JS.nl
  +:+ "files = [".

Definition configFooter : string := "]" +:+ JS.nl.

(** The three values one iteration of the loop substitutes into its
    template literal, and the text of the literal. *)
Definition entryOf (fileName : string) (d : gmap string JS.value) : Entry :=
  {| path := fileName;
     url := JS.replace ".md" "" fileName;
     title := JS.toString (JS.get d "title") |}.

Definition renderEntry (e : Entry) : string :=
  "{" +:+ JS.nl
  +:+ "        path = " +:+ JS.dq +:+ path e +:+ JS.dq +:+ "," +:+ JS.nl
  +:+ "        url = " +:+ JS.dq +:+ url e +:+ JS.dq +:+ "," +:+ JS.nl
  +:+ "        title = " +:+ JS.dq +:+ title e +:+ JS.dq +:+ JS.nl
  +:+ "},".

Definition entryText (fileName : string) (d : gmap string JS.value) : string :=
  renderEntry (entryOf fileName d).

(** The body of [fileNames.forEach]: the closure updates the local [config],
    threaded here as an accumulator. *)
Definition fullPath (fileName : string) : string :=
  path_join host postsDirectory (path_join1 host fileName).

Definition configStep (config fileName : string) : M string :=
  (let fullPath := fullPath fileName in
   fileContents <- readFileSync fullPath ;;
   m <- lift (matter host fileContents) ;;
   ret (config +:+ entryText fileName (data m)))%js.

Fixpoint forEach (fileNames : list string) (config : string) : M string :=
  match fileNames with
  | [] => ret config
  | fileName :: rest =>
      (config' <- configStep config fileName ;; forEach rest config')%js
  end.

Definition createConfig : M unit :=
  (let config := configHeader in
   fileNames <- readdirSync postsDirectory ;;
   config <- forEach fileNames config ;;
   let config := config +:+ configFooter in
   writeFileSync configPath config)%js.

Definition generateStorkIndex : M unit :=
  (createConfig ;;;
   try_catch (execSync storkCommand ;;; ret tt)
             (fun e => console_error e))%js.

End Stork.

(** The frontmatter [createConfig] finds for a file name of the posts
    directory, when the file can be read and parsed. *)
Definition frontmatterOf (host : Host) (fsm : gmap string node)
    (fileName : string) : option (gmap string JS.value) :=
  match fsm !! fullPath host fileName with
  | Some (File c) =>
      match matter host c with
      | Ok m => Some (data m)
      | Throw _ => None
      end
  | _ => None
  end.

Definition renderEntries (es : list Entry) : string :=
  fold_right (fun e rest => renderEntry e +:+ rest) EmptyString es.

(** The configuration text that lists the entries [es]. *)
Definition configText (es : list Entry) : string :=
  configHeader +:+ renderEntries es +:+ configFooter.

Definition isExec (ev : event) : bool :=
  match ev with EvExec _ => true | _ => false end.

Definition isWrite (ev : event) : bool :=
  match ev with EvWriteFile _ _ => true | _ => false end.

(** An effect that neither writes a file nor starts a process. *)
Definition quiet (ev : event) : Prop := isExec ev = false ∧ isWrite ev = false.

(** What "a non-zero exit code or a launch failure" of the indexer is. *)
Definition indexerFailure (o : ExecOutcome) : option exn :=
  match o with
  | SpawnFailed code => Some (SpawnError code)
  | Exited status out err _ =>
      if status =? 0 then None else Some (ExecError status out err)
  end.

(** The file system a child process leaves behind. *)
Definition fsAfter (o : ExecOutcome) (before : gmap string node) : gmap string node :=
  match o with
  | SpawnFailed _ => before
  | Exited _ _ _ fs' => fs'
  end.

(** "The filename with its extension stripped", in the words of the
    specification: the name up to its last dot, the whole name when it has
    no dot. *)
Fixpoint stripExtension (name : string) : string :=
  match name with
  | EmptyString => EmptyString
  | String c rest =>
      if JS.includes "." rest then String c (stripExtension rest)
      else if Ascii.eqb c "."%char then EmptyString
      else name
  end.

(** ** The statistics page *)

Module Ms.

(** The [ms] package on a string of at most 100 characters: a decimal
    literal, optional spaces, an optional unit, the unit matched without
    regard to case.  This is the fragment of the grammar with an unsigned
    integer literal. *)
Definition isDigit (c : ascii) : bool :=
  let n := nat_of_ascii c in ((48 <=? n) && (n <=? 57))%nat.

Definition toLower (c : ascii) : ascii :=
  let n := nat_of_ascii c in
  if ((65 <=? n) && (n <=? 90))%nat then ascii_of_nat (n + 32) else c.

Fixpoint lower (s : string) : string :=
  match s with
  | EmptyString => EmptyString
  | String c s' => String (toLower c) (lower s')
  end.

(** Reads the leading digits: their value, how many there are, the rest. *)
Fixpoint digits (acc : Z) (count : nat) (s : string) : Z * nat * string :=
  match s with
  | String c s' =>
      if isDigit c
      then digits (10 * acc + Z.of_nat (nat_of_ascii c - 48)) (S count) s'
      else (acc, count, s)
  | EmptyString => (acc, count, s)
  end.

Fixpoint skipSpaces (s : string) : string :=
  match s with
  | String " "%char s' => skipSpaces s'
  | _ => s
  end.

Definition s : Z := 1000.
Definition m : Z := s * 60.
Definition h : Z := m * 60.
Definition d : Z := h * 24.
Definition w : Z := d * 7.
(** [d * 365.25] *)
Definition y : Z := d * 1461 / 4.

Definition unit (u : string) : option Z :=
  if bool_decide (u ∈ ["years"; "year"; "yrs"; "yr"; "y"]) then Some y
  else if bool_decide (u ∈ ["weeks"; "week"; "w"]) then Some w
  else if bool_decide (u ∈ ["days"; "day"; "d"]) then Some d
  else if bool_decide (u ∈ ["hours"; "hour"; "hrs"; "hr"; "h"]) then Some h
  else if bool_decide (u ∈ ["minutes"; "minute"; "mins"; "min"; "m"]) then Some m
  else if bool_decide (u ∈ ["seconds"; "second"; "secs"; "sec"; "s"]) then Some s
  else if bool_decide (u ∈ ["milliseconds"; "millisecond"; "msecs"; "msec"; "ms"; ""])
  then Some 1
  else None.

Definition parse (str : string) : option Z :=
  if (100 <? String.length str)%nat then None
  else match digits 0 O str with
       | (_, O, _) => None
       | (n, _, rest) => (fun f => n * f) <$> unit (lower (skipSpaces rest))
       end.

Definition ms (val : string) : option Z := parse val.

End Ms.

(** What [statCounter] resolves to, as [getStaticProps] destructures it. *)
Record Stats : Type := mkStats {
  totalStars : Z;
  totalForks : Z;
  mostRecentPushFormatted : string
}.

Record StaticProps : Type := mkStaticProps {
  props : Stats;
  revalidate : option Z
}.

(** [getStaticProps] of the projects page, after [statCounter] has resolved
    to [stats].  [revalidate] is [ms('30min') / 1000]; the quotient is taken
    in the integers, and is exact where the theorems use it. *)
Definition getStaticProps (stats : Stats) : StaticProps :=
  {| props := {| totalStars := totalStars stats;
                 totalForks := totalForks stats;
                 mostRecentPushFormatted := mostRecentPushFormatted stats |};
     revalidate := (fun t => t / 1000) <$> Ms.ms "30min" |}.

(** The projects page as it is served.  The page is generated by
    [getStaticProps] and held by Next.js together with the props it was
    generated from; [revalidate] is the number of seconds after which a
    request makes Next.js generate it again. *)
Module ProjectsPage.

(** The children of the paragraph of [Projects] that shows the statistics. *)
Inductive child : Type :=
  | Text (text : string)
  | Number (n : Z)
  | Code (text : string)
  | Anchor (href text : string).

(** [Projects({ totalStars, totalForks, mostRecentPushFormatted })], by the
    paragraph under the heading. *)
Definition Projects (p : Stats) : list child :=
  [Text ("My side projects include programming languages, game solvers, "
         +:+ "developer tools, databases, and games. My public GitHub "
         +:+ "repositories been starred ");
   Number (totalStars p);
   Text " times, forked ";
   Number (totalForks p);
   Text " times, and my most recent ";
   Code "git push";
   Text " was ";
   Text (mostRecentPushFormatted p);
   Text " ago (this section updates ";
   Anchor ("https://github.com/trevorstenson/trevo.rs/blob/"
           +:+ "7d9881e0dfea6b81eef173a7dc98186b20ce6eae/pages/projects.tsx#L90")
     "every half an hour";
   Text ")."].

(** What Next.js holds of the page: what [getStaticProps] returned, and the
    time, in seconds, at which it did. *)
Record Generated : Type := mkGenerated {
  static : StaticProps;
  generatedAt : Z
}.

Section Regeneration.

(** [statCounter(siteConfig.AUTHOR_GITHUB)], which the page imports from
    lib/github: what a call at a time resolves to ([None] when it rejects),
    and the state the library keeps from one call to the next. *)
Context {State : Type}.
Context (statCounter : State -> Z -> option Stats * State).

(** One run of the asynchronous [getStaticProps] at the time [now]: a
    rejected [statCounter] makes it throw, and no page is generated. *)
Definition generate (s : State) (now : Z) : option Generated * State :=
  match statCounter s now with
  | (Some stats, s') =>
      (Some {| static := getStaticProps stats; generatedAt := now |}, s')
  | (None, s') => (None, s')
  end.

(** Whether the [revalidate] seconds of the page held have not passed yet;
    a page without [revalidate] is never generated again. *)
Definition fresh (page : Generated) (now : Z) : bool :=
  match revalidate (static page) with
  | Some seconds => now <? generatedAt page + seconds
  | None => true
  end.

(** One request.  Next.js answers with the page it holds, rendered from the
    props it holds.  A request that arrives after the [revalidate] seconds
    is answered in the same way, and makes Next.js run [getStaticProps]
    again; the page generated replaces the one held, for the requests that
    follow, unless [getStaticProps] threw. *)
Definition request (held : Generated * State) (now : Z)
    : list child * (Generated * State) :=
  let shown := Projects (props (static held.1)) in
  if fresh held.1 now then (shown, held)
  else match generate held.2 now with
       | (Some page, s') => (shown, (page, s'))
       | (None, s') => (shown, (held.1, s'))
       end.

(** Requests at the [times], one after the other: what each was answered
    with, and what is held in the end. *)
Fixpoint requests (held : Generated * State) (times : list Z)
    : list (list child) * (Generated * State) :=
  match times with
  | [] => ([], held)
  | now :: later =>
      let first := request held now in
      let rest := requests first.2 later in
      (first.1 :: rest.1, rest.2)
  end.

End Regeneration.

End ProjectsPage.

(** ** The content loader *)

Module Loader.

Record Date : Type := mkDate { year : Z; month : Z; day : Z }.

Definition isLeap (y : Z) : bool :=
  ((y mod 4 =? 0) && negb (y mod 100 =? 0)) || (y mod 400 =? 0).

Definition daysIn (y m : Z) : Z :=
  if m =? 2 then (if isLeap y then 29 else 28)
  else if bool_decide (m ∈ [4; 6; 9; 11]) then 30 else 31.

Definition validDate (d : Date) : bool :=
  (1 <=? month d) && (month d <=? 12)
  && (1 <=? day d) && (day d <=? daysIn (year d) (month d)).

Fixpoint splitOn (sep : ascii) (s : string) : list string :=
  match s with
  | EmptyString => [EmptyString]
  | String c s' =>
      match splitOn sep s' with
      | l :: ls => if Ascii.eqb c sep then EmptyString :: l :: ls
                   else String c l :: ls
      | [] => [String c EmptyString]
      end
  end.

(** A field of [width] decimal digits. *)
Definition number (width : nat) (s : string) : option Z :=
  match Ms.digits 0 O s with
  | (n, count, EmptyString) => if (count =? width)%nat then Some n else None
  | _ => None
  end.

(** An ISO calendar date, [YYYY-MM-DD], that exists in the calendar. *)
Definition parseDate (s : string) : option Date :=
  match splitOn "-"%char s with
  | [y; m; d] =>
      y ← number 4 y; m ← number 2 m; d ← number 2 d;
      let date := mkDate y m d in
      if validDate date then Some date else None
  | _ => None
  end.

Record Post : Type := mkPost {
  fileName : string;
  id : string;
  title : string;
  date : Date;
  tags : list string;
  description : string;
  draft : bool;
  body : string
}.

Inductive error : Type :=
  | MalformedContent (file field : string)
  | NotFound (id : string).

Definition tagsOf (v : JS.value) : list string :=
  match v with
  | JS.Arr items =>
      omap (fun i => match i with JS.Str t => Some t | _ => None end) items
  | _ => []
  end.

Definition textOf (v : JS.value) : string :=
  match v with JS.Str t => t | _ => EmptyString end.

Definition flagOf (v : JS.value) : bool :=
  match v with JS.Bool b => b | _ => false end.

(** Modelled from the spec: the repository's post loader (lib/posts) is not
    among the sources.  A file is split into header and body by the header
    parser of the host; [title] and [date] are required, [tags] and
    [description] default to empty, [draft] to false; a missing required
    field or a date that does not parse is [MalformedContent], naming the
    file and the field. *)
Definition parsePost (host : Host) (file contents : string) : error + Post :=
  match matter host contents with
  | Throw _ => inl (MalformedContent file "header")
  | Ok m =>
      match data m !! "title" with
      | Some (JS.Str t) =>
          match data m !! "date" with
          | Some (JS.Str d) =>
              match parseDate d with
              | Some day =>
                  inr {| fileName := file;
                         id := stripExtension file;
                         title := t;
                         date := day;
                         tags := tagsOf (JS.get (data m) "tags");
                         description := textOf (JS.get (data m) "description");
                         draft := flagOf (JS.get (data m) "draft");
                         body := content m |}
              | None => inl (MalformedContent file "date")
              end
          | _ => inl (MalformedContent file "date")
          end
      | _ => inl (MalformedContent file "title")
      end
  end.

(** Modelled from the spec: one malformed file is fatal, no partial catalog
    is produced. *)
Fixpoint parseAll (host : Host) (dir : list (string * string)) : error + list Post :=
  match dir with
  | [] => inr []
  | (file, contents) :: rest =>
      match parsePost host file contents with
      | inl e => inl e
      | inr p =>
          match parseAll host rest with
          | inl e => inl e
          | inr ps => inr (p :: ps)
          end
      end
  end.

Definition earlier (a b : Date) : Prop :=
  year a < year b
  ∨ (year a = year b
     ∧ (month a < month b ∨ (month a = month b ∧ day a < day b))).

(** Modelled from the spec: the catalog order.  [p] stands before [q] when
    it is dated later, or on the same day under a file name that is not
    lexically greater. *)
Definition before (p q : Post) : Prop :=
  earlier (date q) (date p)
  ∨ (date p = date q ∧ String.le (fileName p) (fileName q)).

#[global] Instance date_eq_dec : EqDecision Date.
Proof. solve_decision. Defined.

#[global] Instance earlier_dec : RelDecision earlier.
Proof. intros a b. unfold earlier. apply _. Defined.

#[global] Instance before_dec : RelDecision before.
Proof. intros p q. unfold before. apply _. Defined.

(** Modelled from the spec: [loadAll() → ordered sequence of Post],
    date-descending, ties by file name ascending; the content directory is
    given as its files, name and text. *)
Definition loadAll (host : Host) (dir : list (string * string)) : error + list Post :=
  match parseAll host dir with
  | inl e => inl e
  | inr ps => inr (merge_sort before ps)
  end.

End Loader.

(** ** The feed generator *)

Module Feed.

Record Channel : Type := mkChannel {
  channelTitle : string;
  baseUrl : string;
  channelDescription : string
}.

Record FeedItem : Type := mkItem {
  itemTitle : string;
  itemLink : string;
  itemDescription : string;
  pubDate : string
}.

Record FeedDocument : Type := mkFeed {
  channel : Channel;
  items : list FeedItem
}.

Definition monthName (m : Z) : string :=
  default "Jan"
    (["Jan"; "Feb"; "Mar"; "Apr"; "May"; "Jun";
      "Jul"; "Aug"; "Sep"; "Oct"; "Nov"; "Dec"] !! Z.to_nat (m - 1)).

Definition twoDigits (n : Z) : string :=
  (if n <? 10 then "0" else "") +:+ pretty n.

(** Modelled from the spec: the fixed timestamp grammar of the feed, whatever
    the loader's representation of a date. *)
Definition timestamp (d : Loader.Date) : string :=
  twoDigits (Loader.day d) +:+ " " +:+ monthName (Loader.month d) +:+ " "
  +:+ pretty (Loader.year d) +:+ " 00:00:00 GMT".

Definition itemOf (ch : Channel) (p : Loader.Post) : FeedItem :=
  {| itemTitle := Loader.title p;
     itemLink := baseUrl ch +:+ "/" +:+ Loader.id p;
     itemDescription := Loader.description p;
     pubDate := timestamp (Loader.date p) |}.

(** Modelled from the spec: the repository's feed generator (lib/rss) is not
    among the sources.  [build(posts) → FeedDocument]: one item per post, in
    the order given, under the channel's metadata. *)
Definition build (ch : Channel) (posts : list Loader.Post) : FeedDocument :=
  {| channel := ch; items := List.map (itemOf ch) posts |}.

Definition element (name inner : string) : string :=
  "<" +:+ name +:+ ">" +:+ inner +:+ "</" +:+ name +:+ ">".

Definition renderItem (i : FeedItem) : string :=
  element "item"
    (element "title" (itemTitle i) +:+ element "link" (itemLink i)
     +:+ element "description" (itemDescription i)
     +:+ element "pubDate" (pubDate i)).

(** Modelled from the spec: [render(doc) → wire bytes], one channel element
    with title, link and description, then the items. *)
Definition render (doc : FeedDocument) : string :=
  element "rss"
    (element "channel"
       (element "title" (channelTitle (channel doc))
        +:+ element "link" (baseUrl (channel doc))
        +:+ element "description" (channelDescription (channel doc))
        +:+ fold_right (fun i rest => renderItem i +:+ rest) EmptyString
              (items doc))).

(** Modelled from the spec: the rendered bytes overwrite the configured
    output location. *)
Definition generate (output : string) (ch : Channel) (posts : list Loader.Post)
    : M unit :=
  writeFileSync output (render (build ch posts)).

(** Modelled from the spec: the scan of the loader, which reads the files of
    the content directory, name and text, in the order of enumeration; a
    file that cannot be read fails the scan. *)
Fixpoint readAll (host : Host) (names : list string) : M (list (string * string)) :=
  match names with
  | [] => ret []
  | name :: rest =>
      (text <- readFileSync (fullPath host name) ;;
       others <- readAll host rest ;;
       ret ((name, text) :: others))%js
  end.

(** Modelled from the spec: a build of the feed as the home page asks for
    it, [await generateRssFeed()], without an argument.  The loader scans
    the content directory and reads its files; the posts it returns, sorted,
    are built into the feed document and rendered, and the bytes overwrite
    the output.  A malformed post is fatal to the build: the error is
    returned and nothing is written. *)
Definition generateRssFeed (host : Host) (output : string) (ch : Channel)
    : M (Loader.error + unit) :=
  (names <- readdirSync (postsDirectory host) ;;
   files <- readAll host names ;;
   match Loader.loadAll host files with
   | inl e => ret (inl e)
   | inr posts => (generate output ch posts ;;; ret (inr tt))
   end)%js.

End Feed.

(** ** The repository-statistics cache *)

Module StatsCache.

Record Repo : Type := mkRepo { stars : Z; forks : Z; pushedAt : Z }.

(** Times are milliseconds since the epoch. *)
Record Snapshot : Type := mkSnapshot {
  snapStars : Z;
  snapForks : Z;
  mostRecentPush : Z;
  fetchedAt : Z;
  expiry : Z
}.

Inductive error : Type := StatsFetchError.

(** Modelled from the spec: the time-to-live of a snapshot, 30 minutes. *)
Definition TTL : Z := 30 * 60 * 1000.

Definition isFresh (snap : Snapshot) (now : Z) : bool := now <? expiry snap.

(** Modelled from the spec: star and fork counts are summed, the latest push
    is taken, and the fresh snapshot expires one TTL after [now]. *)
Definition aggregate (repos : list Repo) (now : Z) : Snapshot :=
  {| snapStars := fold_right (fun r acc => stars r + acc) 0 repos;
     snapForks := fold_right (fun r acc => forks r + acc) 0 repos;
     mostRecentPush := fold_right (fun r acc => Z.max (pushedAt r) acc) 0 repos;
     fetchedAt := now;
     expiry := now + TTL |}.

(** A single entry, keyed by account. *)
Definition Cache : Type := option (string * Snapshot).

Record Outcome : Type := mkOutcome {
  value : error + Snapshot;
  held : Cache;
  fetches : nat
}.

Definition lookup (cache : Cache) (account : string) (now : Z) : option Snapshot :=
  match cache with
  | Some (a, snap) =>
      if bool_decide (a = account) && isFresh snap now then Some snap else None
  | None => None
  end.

(** Modelled from the spec: the repository's statistics client (lib/github)
    is not among the sources.  [get(account)]: a fresh held snapshot is
    returned unchanged, without a network call; otherwise every repository
    of the account is fetched, and a failure of the fetch fails the call and
    leaves the cache as it was. *)
Definition get (network : string -> option (list Repo)) (cache : Cache)
    (account : string) (now : Z) : Outcome :=
  match lookup cache account now with
  | Some snap => {| value := inr snap; held := cache; fetches := 0 |}
  | None =>
      match network account with
      | Some repos =>
          let snap := aggregate repos now in
          {| value := inr snap; held := Some (account, snap); fetches := 1 |}
      | None => {| value := inl StatsFetchError; held := cache; fetches := 1 |}
      end
  end.

(** Modelled from the spec: the human-readable relative duration, in whole
    minutes; the page prints it followed by "ago". *)
Definition formatDuration (elapsed : Z) : string :=
  pretty (elapsed / 60000) +:+ " minutes".

(** Modelled from the spec: what a call of the library's [statCounter]
    resolves to (lib/github is not among the sources).  The formatted
    duration is derived from [now], the time of the call, and the latest
    push of the snapshot.  This is the call only: the page that shows the
    string, and how long the page is held, are modelled from the sources in
    [ProjectsPage]. *)
Definition statCounter (network : string -> option (list Repo)) (cache : Cache)
    (account : string) (now : Z) : (error + Stats) * Cache :=
  let o := get network cache account now in
  match value o with
  | inr snap =>
      (inr {| totalStars := snapStars snap;
              totalForks := snapForks snap;
              mostRecentPushFormatted :=
                formatDuration (now - mostRecentPush snap) |},
       held o)
  | inl e => (inl e, held o)
  end.

End StatsCache.

(** ** A concrete host, for the examples *)

Module Demo.

Fixpoint splitKeyValue (line : string) : option (string * string) :=
  if String.prefix ": " line then Some (EmptyString, JS.drop 2 line)
  else match line with
       | EmptyString => None
       | String c rest =>
           match splitKeyValue rest with
           | Some (k, v) => Some (String c k, v)
           | None => None
           end
       end.

Fixpoint dropLast (s : string) : string :=
  match s with
  | EmptyString => EmptyString
  | String c EmptyString => EmptyString
  | String c rest => String c (dropLast rest)
  end.

Definition unquote (v : string) : string :=
  if String.prefix JS.dq v && JS.endsWith JS.dq (JS.drop 1 v)
  then dropLast (JS.drop 1 v) else v.

(** A value: a boolean, a flow sequence of strings, or a string. *)
Definition scalar (v : string) : JS.value :=
  if String.eqb v "true" then JS.Bool true
  else if String.eqb v "false" then JS.Bool false
  else if String.prefix "[" v && JS.endsWith "]" v
       then let inner := dropLast (JS.drop 1 v) in
            if String.eqb inner EmptyString then JS.Arr []
            else JS.Arr (List.map (fun i => JS.Str (unquote (Ms.skipSpaces i)))
                           (Loader.splitOn ","%char inner))
  else JS.Str (unquote v).

Fixpoint header (lines : list string) (d : gmap string JS.value)
    : result GrayMatterFile :=
  match lines with
  | [] => Ok {| data := d; content := EmptyString |}
  | line :: rest =>
      if String.eqb line "---"
      then Ok {| data := d; content := String.concat JS.nl rest |}
      else match splitKeyValue line with
           | Some (k, v) => header rest (<[k := scalar v]> d)
           | None => Throw (YAMLException line)
           end
  end.

(** A reader for flat [key: value] headers between two [---] lines, standing
    in for gray-matter. *)
Definition readHeader (text : string) : result GrayMatterFile :=
  match Loader.splitOn "010"%char text with
  | first :: rest =>
      if String.eqb first "---" then header rest ∅
      else Ok {| data := ∅; content := text |}
  | [] => Ok {| data := ∅; content := text |}
  end.

(** The indexer of the examples: absent when [stork.sh] is not a file,
    failing with status 1 when it is the text [exit 1], succeeding
    otherwise. *)
Definition indexer (command : string) (fsm : gmap string node) : ExecOutcome :=
  match fsm !! command with
  | Some (File script) =>
      if String.eqb script "exit 1"
      then Exited 1 EmptyString "stork: cannot index" fsm
      else Exited 0 "ok" EmptyString (<["/site/public/stork.st" := File "index"]> fsm)
  | _ => SpawnFailed "ENOENT"
  end.

Definition host : Host :=
  {| cwd := "/site";
     path_join := fun a b => a +:+ "/" +:+ b;
     path_join1 := fun a => a;
     matter := readHeader;
     run := indexer |}.

Definition world (files : list (string * string)) (others : list (string * node))
    : World :=
  {| fs := list_to_map
             (("/site/posts", Dir (files.*1))
              :: List.map (fun f => ("/site/posts/" +:+ f.1, File f.2)) files
              ++ others);
     trace := [] |}.

Definition quoted (text : string) : string := JS.dq +:+ text +:+ JS.dq.

Definition document (headerLines : list string) (text : string) : string :=
  String.concat JS.nl (["---"] ++ headerLines ++ ["---"; ""; text]).

(** After the header of [posts/claude-redact-env.md], a draft. *)
Definition redactDraft : string :=
  document
    ["title: " +:+ quoted "Hiding Secrets from Your AI Pair Programmer";
     "date: " +:+ quoted "2024-12-26";
     "tags: [" +:+ quoted "javascript" +:+ ", " +:+ quoted "claude" +:+ ", "
       +:+ quoted "security" +:+ "]";
     "draft: true"]
    "Over the holiday break.".

(** The same title over another date, other tags, a description, no draft
    flag and another body. *)
Definition redactPublished : string :=
  document
    ["title: " +:+ quoted "Hiding Secrets from Your AI Pair Programmer";
     "date: " +:+ quoted "2025-12-27";
     "tags: [" +:+ quoted "AI" +:+ "]";
     "description: " +:+ quoted "Published at last"]
    "Over the last year.".

Definition gpt3 : string :=
  document
    ["title: " +:+ quoted "Rewriting Requests with GPT-3";
     "date: " +:+ quoted "2023-02-19";
     "tags: [" +:+ quoted "AI" +:+ ", " +:+ quoted "javascript" +:+ "]"]
    "In my last post.".

(** A site whose indexer exits with status 1. *)
Definition site : World :=
  world [("claude-redact-env.md", redactDraft); ("notes.txt", "plain text")]
        [("/site/stork.sh", File "exit 1")].

(** The same names and titles, other bodies, dates and flags; no indexer. *)
Definition sitePublished : World :=
  world [("claude-redact-env.md", redactPublished); ("notes.txt", "other text")] [].

Definition notesOnly : World := world [("notes.txt", "plain text")] [].


(** No posts directory at all. *)
Definition bareSite : World := {| fs := ∅; trace := [] |}.

(** Two posts of one day under two names, and an older one. *)
Definition directory : list (string * string) :=
  [("serviceworker-gpt-3.md", gpt3);
   ("redact-b.md", redactDraft);
   ("redact-a.md", redactDraft)].

Definition channel : Feed.Channel :=
  {| Feed.channelTitle := "Blog";
     Feed.baseUrl := "https://example.org";
     Feed.channelDescription := "Posts" |}.

Definition network (account : string) : option (list StatsCache.Repo) :=
  if String.eqb account "octo"
  then Some [StatsCache.mkRepo 3 1 100000; StatsCache.mkRepo 4 0 40000]
  else None.

(** A snapshot fetched at 600 000 ms whose latest push was at 100 000 ms. *)
Definition snapshot : StatsCache.Snapshot :=
  StatsCache.aggregate [StatsCache.mkRepo 3 1 100000; StatsCache.mkRepo 4 0 40000]
    600000.

(** The posts directory lists a file that is not there. *)
Definition brokenSite : World :=
  {| fs := <["/site/posts" :=
               Dir ["claude-redact-env.md"; "missing.md"; "notes.txt"]]> (fs site);
     trace := [] |}.

Definition tags : list string := ["AI"; "javascript"; "rust"].

Definition noPosts (t : string) : list string := [].

(** The catalog of the home page: two posts, by their ids. *)
Definition catalog : list string := ["claude-redact-env"; "serviceworker-gpt-3"].

Definition postData (postId : string) : GrayMatterFile :=
  if String.eqb postId "claude-redact-env"
  then {| data := ∅; content := "Over the holiday  break." |}
  else {| data := ∅; content := EmptyString |}.

(** An image of three rows and three columns, by its energies. *)
Definition image : list (list Z) := [[5; 1; 9]; [4; 8; 2]; [7; 3; 6]].

(** Energies that add up without bound, and energies of eight bits whose
    addition panics on overflow. *)
Definition plus (a b : Z) : option Z := Some (a + b).

Definition plus8 (a b : Z) : option Z :=
  if a + b <? 256 then Some (a + b) else None.

(** Energies of eight bits whose addition wraps around on overflow. *)
Definition wrap8 (a b : Z) : option Z := Some ((a + b) mod 256).


(** The three posts of [directory] as a site, and the same posts on a site
    that has an indexer and a feed from an earlier build. *)
Definition blog : World := world directory [].


(** [statCounter] over the cache of the library, times in seconds. *)
Definition statCounter (cache : StatsCache.Cache) (now : Z)
    : option Stats * StatsCache.Cache :=
  match StatsCache.statCounter network cache "octo" (now * 1000) with
  | (inr stats, cache') => (Some stats, cache')
  | (inl _, cache') => (None, cache')
  end.

(** What [statCounter] resolves to at 600 s, the latest push being at 100 s,
    and the page generated from it then. *)
Definition pushed : Stats :=
  {| totalStars := 7; totalForks := 1; mostRecentPushFormatted := "8 minutes" |}.

Definition page : ProjectsPage.Generated :=
  {| ProjectsPage.static := getStaticProps pushed;
     ProjectsPage.generatedAt := 600 |}.

(** Helpers of the hook for the examples: the sensitive file is [.env]. *)
Definition extractEnv (command : string) : option string :=
  if JS.includes ".env" command then Some ".env" else None.

Definition isEnv (filePath : string) : bool := String.eqb filePath ".env".

Definition redactEnv (filePath : string) : option string :=
  Some ("/tmp/redacted-" +:+ JS.drop 1 filePath).

End Demo.

(** ** More of the search-index step *)

(** The reads of the loop of [createConfig] over [names], in order. *)
Definition readEvents (host : Host) (names : list string) : list event :=
  List.map (fun n => EvReadFile (fullPath host n)) names.

(** What one turn of the loop throws for a file name, if it throws. *)
Definition readFailure (host : Host) (fsm : gmap string node)
    (fileName : string) : option exn :=
  match fsm !! fullPath host fileName with
  | Some (File c) =>
      match matter host c with
      | Ok _ => None
      | Throw e => Some e
      end
  | Some (Dir _) => Some (EISDIR (fullPath host fileName))
  | None => Some (ENOENT (fullPath host fileName))
  end.

(** What [generateStorkIndex] sends to the parent's stderr and to the
    console once the child has ended. *)
Definition consoleAfter (o : ExecOutcome) : list event :=
  match o with
  | SpawnFailed code => [EvConsoleError (SpawnError code)]
  | Exited status out err _ =>
      EvStderr err
      :: (if status =? 0 then [] else [EvConsoleError (ExecError status out err)])
  end.

(** ** The tag pages *)

Module TagPage.

(** What [Array.prototype.reduce] throws on an empty array when it is given
    no initial value. *)
Inductive typeError : Type := ReduceOfEmptyArray.

Record Params : Type := mkParams { tag : string }.

(** What a component returns, as far as the page needs it: text, links, and
    arrays of these. *)
#[warnings="-register-all"]
Inductive child : Type :=
  | Text (text : string)
  | Link (href : string) (key : option nat) (text : string)
  | Arr (items : list child).

(** React renders an array among the children as its items, in order. *)
Fixpoint flatten (c : child) : list child :=
  match c with
  | Arr items => List.concat (List.map flatten items)
  | _ => [c]
  end.

(** [Array.prototype.reduce(callback)], without an initial value. *)
Definition reduce {A} (callback : A -> A -> A) (l : list A) : typeError + A :=
  match l with
  | [] => inl ReduceOfEmptyArray
  | first :: rest => inr (fold_left callback rest first)
  end.

(** [toUpperCase] on one character of ASCII: the letters [a] to [z] become
    [A] to [Z], the other characters stay.  (Outside ASCII JavaScript turns
    other letters into capitals too; the model is not for them.) *)
Definition toUpperCase (c : ascii) : ascii :=
  let n := nat_of_ascii c in
  if ((97 <=? n) && (n <=? 122))%nat then ascii_of_nat (n - 32) else c.

(** [`${tag.charAt(0).toUpperCase()}${tag.slice(1)}`], for a tag that
    [startsAscii]. *)
Definition capitalize (tag : string) : string :=
  match tag with
  | EmptyString => EmptyString
  | String c rest => String (toUpperCase c) rest
  end.

(** The tags whose text [capitalize] gives as the source does: the empty
    one and those that start with a character of ASCII. *)
Definition startsAscii (tag : string) : bool :=
  match tag with
  | EmptyString => true
  | String c _ => (nat_of_ascii c <? 128)%nat
  end.

Section Page.

(** The two functions the page takes from the post library, by what they
    return. *)
Context {Post : Type}.
Context (getAllTags : list string).
Context (getPostsFilteredByTag : string -> list Post).

Record Props : Type := mkProps {
  otherTags : list string;
  propsTag : string;
  posts : list Post
}.


Definition getStaticProps (params : Params) : Props :=
  {| otherTags := filter (fun t => t <> tag params) getAllTags;
     propsTag := tag params;
     posts := getPostsFilteredByTag (tag params) |}.

Record Rendered : Type := mkRendered {
  layoutTitle : string;
  heading : string;
  otherTagsLine : list child;
  postList : list Post
}.

(** The links of the "Other tags" line, before they are joined:
    [formattedTags.map((formattedTag, i) => <Link href={`/tags/${otherTags[i]}`} key={i}>...)]. *)
Definition tagLinks (otherTags : list string) : list child :=
  let formattedTags := List.map capitalize otherTags in
  imap (fun i formattedTag =>
          Link ("/tags/" +:+ default "undefined" (otherTags !! i)) (Some i)
            formattedTag)
       formattedTags.

Definition TagList (props : Props) : typeError + Rendered :=
  let title := capitalize (propsTag props) +:+ " posts" in
  match reduce (fun prev curr => Arr [prev; Text ", "; curr])
          (tagLinks (otherTags props)) with
  | inl e => inl e
  | inr joined =>
      inr {| layoutTitle := title;
             heading := title;
             otherTagsLine :=
               [Text "Other tags:"; Text " "; joined; Text " ";
                Text "or "; Link "/articles" None "all articles"; Text "."];
             postList := posts props |}
  end.

End Page.

(** A list with [separator] between its elements. *)
Definition separated (separator : child) (l : list child) : list child :=
  match l with
  | [] => []
  | first :: rest => first :: List.concat (List.map (fun c => [separator; c]) rest)
  end.

End TagPage.

(** ** The home page *)

Module HomePage.

(** [String.prototype.split] with a separator of one character. *)
Definition split (separator : ascii) (s : string) : list string :=
  Loader.splitOn separator s.

Definition isDigit (c : ascii) : bool := Ms.isDigit c.

(** A word character of a regular expression: a letter, a digit or [_]. *)
Definition isWord (c : ascii) : bool :=
  let n := nat_of_ascii c in
  isDigit c || ((65 <=? n) && (n <=? 90))%nat || ((97 <=? n) && (n <=? 122))%nat
  || (n =? 95)%nat.

Definition startsWithDigit (s : string) : bool :=
  match s with
  | String c _ => isDigit c
  | EmptyString => false
  end.

(** The lookahead [(?=(\d{3})+(?!\d))]: one group of three digits, then
    either no digit follows or the lookahead holds again. *)
Fixpoint lookahead (s : string) : bool :=
  match s with
  | String a (String b (String c rest)) =>
      isDigit a && isDigit b && isDigit c
      && (negb (startsWithDigit rest) || lookahead rest)
  | _ => false
  end.

(** [\B] between [prev] and the head of [s]: not a word boundary. *)
Definition notBoundary (prev : option ascii) (s : string) : bool :=
  Bool.eqb (match prev with Some c => isWord c | None => false end)
           (match s with String c _ => isWord c | EmptyString => false end).

(** [replace(/\B(?=(\d{3})+(?!\d))/g, ",")]: a comma goes in at every
    position where the pattern matches the empty string. *)
Fixpoint insertCommas (prev : option ascii) (s : string) : string :=
  let here := if notBoundary prev s && lookahead s then "," else EmptyString in
  match s with
  | EmptyString => here
  | String c rest => here +:+ String c (insertCommas (Some c) rest)
  end.

(** [Number.isSafeInteger]: the integers up to [2^53 - 1] either side of
    zero.  A JavaScript number is a double; each of these integers is one,
    and [toString] prints it in plain decimal.  (Beyond them not every
    integer is a number, and from [1e21] on [toString] prints an
    exponent.) *)
Definition isSafeInteger (x : Z) : bool := Z.abs x <=? 2 ^ 53 - 1.

(** [numberWithCommas(x)] for a number [x] that [isSafeInteger]. *)
Definition numberWithCommas (x : Z) : string :=
  insertCommas None (JS.toString (JS.Num x)).

Section Page.

(** The two functions the page takes from the post library, by what they
    return, and the description of the site configuration. *)
Context {Post : Type}.
Context (id : Post -> string).
Context (getSortedPostsData : list Post).
Context (getPostData : string -> GrayMatterFile).
Context (SITE_DESC : string).

Record Props : Type := mkProps {
  allPostsData : list Post;
  description : string;
  words : Z
}.

(** [getStaticProps], after the feed has been generated. *)
Definition getStaticProps : Props :=
  let allPostsData := getSortedPostsData in
  let words :=
    fold_left
      (fun count current =>
         count + Z.of_nat (length (split " "%char (content (getPostData (id current))))))
      allPostsData 0 in
  {| allPostsData := allPostsData; description := SITE_DESC; words := words |}.

End Page.

(** How often a character occurs in a string. *)
Fixpoint occurrences (c : ascii) (s : string) : nat :=
  match s with
  | EmptyString => O
  | String x rest => ((if Ascii.eqb x c then 1 else 0) + occurrences c rest)%nat
  end.

Fixpoint without (c : ascii) (s : string) : string :=
  match s with
  | EmptyString => EmptyString
  | String x rest => if Ascii.eqb x c then without c rest else String x (without c rest)
  end.

Fixpoint allDigits (s : string) : bool :=
  match s with
  | EmptyString => true
  | String c rest => isDigit c && allDigits rest
  end.

(** The three decimal digits of a number below 1000. *)
Definition threeDigits (r : Z) : string :=
  String (pretty_N_char (Z.to_N (r / 100)))
    (String (pretty_N_char (Z.to_N (r / 10 mod 10)))
       (String (pretty_N_char (Z.to_N (r mod 10))) EmptyString)).

End HomePage.

(** ** Seam carving *)

(** [find_seam], the function listed in the post on seam carving.  A panic
    is [None].  An energy is an integer; what its type does on [+] is taken
    from outside: [add] is [None] where the addition panics. *)
Module SeamCarving.

(** [Iterator::min_by_key] over pairs of an index and a value, the value
    being the key: of several least elements the first is returned. *)
Fixpoint min_from (best : nat * Z) (rest : list (nat * Z)) : nat * Z :=
  match rest with
  | [] => best
  | next :: rest' => min_from (if next.2 <? best.2 then next else best) rest'
  end.

Definition min_by_key (items : list (nat * Z)) : option (nat * Z) :=
  match items with
  | [] => None
  | first :: rest => Some (min_from first rest)
  end.

Definition enumerate {A} (l : list A) : list (nat * A) :=
  imap (fun i a => (i, a)) l.

(** [[left_x, x, right_x]], wrapping around at the left and right edges. *)
Definition neighbors (width x : nat) : list nat :=
  let left_x := if (x =? 0)%nat then (width - 1)%nat else (x - 1)%nat in
  let right_x := if (x =? width - 1)%nat then 0%nat else (x + 1)%nat in
  [left_x; x; right_x].

Section FindSeam.

Context (add : Z -> Z -> option Z).

(** One turn of the inner loop: the values of [seam_energies[y][x]] and of
    [choices[y][x]], from the row [above] of [seam_energies] and the row
    [row] of the energies. *)
Definition cell (above row : list Z) (width x : nat) : option (Z * nat) :=
  let ns := neighbors width x in
  vals ← mapM (fun n => above !! n) ns;
  found ← min_by_key (enumerate vals);
  let '(chosen_idx, min_energy) := found in
  energy ← row !! x;
  total ← add energy min_energy;
  chosen ← ns !! chosen_idx;
  Some (total, chosen).

(** The inner loop, [for x in 0..width]. *)
Definition next_row (above row : list Z) (width : nat)
    : option (list Z * list nat) :=
  cells ← mapM (cell above row width) (seq 0 width);
  Some (cells.*1, cells.*2).

(** The outer loop, [for y in 1..height].  Of [seam_energies] the last row
    is kept, which is all the next turn reads; the rows of [choices] are
    kept from the last to the first, the order in which they are read
    afterwards. *)
Fixpoint forward (width : nat) (above : list Z) (rows : list (list Z))
    (choices : list (list nat)) : option (list Z * list (list nat)) :=
  match rows with
  | [] => Some (above, choices)
  | row :: rows' =>
      step ← next_row above row width;
      forward width step.1 rows' (step.2 :: choices)
  end.

(** [for y in (1..height).rev() { curr_x = choices[y][curr_x]; seam.push(curr_x) }] *)
Fixpoint backtrack (choices : list (list nat)) (curr_x : nat) : option (list nat) :=
  match choices with
  | [] => Some []
  | row :: choices' =>
      next ← row !! curr_x;
      rest ← backtrack choices' next;
      Some (next :: rest)
  end.

Definition find_seam (energies : list (list Z)) : option (list nat) :=
  match energies with
  | [] => None
  | first :: rows =>
      let width := length first in
      done ← forward width first rows [];
      found ← min_by_key (enumerate done.1);
      rest ← backtrack done.2 found.1;
      Some (reverse (found.1 :: rest))
  end.

End FindSeam.

(** A seam from the top: each column is a neighbor, in the sense of the
    source, of the column below it. *)
Definition connected (width : nat) (seam : list nat) : Prop :=
  forall y a b, seam !! y = Some a -> seam !! S y = Some b ->
    a ∈ neighbors width b.

(** The sum of the energies along a path, one column per row. *)
Definition energyAlong (energies : list (list Z)) (path : list nat) : Z :=
  foldr Z.add 0 (zip_with (fun row x => default 0 (row !! x)) energies path).

(** The same from the bottom: [below] is the column in the row under the
    first of [above]. *)
Fixpoint chain (width below : nat) (above : list nat) : Prop :=
  match above with
  | [] => True
  | a :: above' => a ∈ neighbors width below ∧ chain width a above'
  end.

(** A row of [choices]: as wide as the image, a neighbor in every place. *)
Definition choiceRow (width : nat) (row : list nat) : Prop :=
  length row = width ∧ forall x c, row !! x = Some c -> c ∈ neighbors width x.

(** What the two tables hold after a turn of the outer loop, [below] being
    the rows of energies read so far, the last first: for every column,
    [current] has the energy of the path that [choices] traces up from it,
    and no path up from that column has less. *)
Definition tables (width : nat) (below : list (list Z)) (current : list Z)
    (choices : list (list nat)) : Prop :=
  length current = width
  ∧ Forall (choiceRow width) choices
  ∧ (forall x v, current !! x = Some v ->
       ∃ rest, backtrack choices x = Some rest
               ∧ energyAlong below (x :: rest) = v)
  ∧ (forall x v rest, current !! x = Some v ->
       length rest = length choices -> chain width x rest ->
       v <= energyAlong below (x :: rest)).

End SeamCarving.

(** ** The redaction hook *)

(** [isFileReadCommand] and [handleBashTool], as listed in the post on the
    redaction hook.  Commands are texts of ASCII characters. *)
Module Redact.

Definition FILE_READ_COMMANDS : list string :=
  ["cat"; "head"; "tail"; "less"; "more"; "grep"; "awk"; "sed"; "bat"; "rg"].

(** [\s] among the characters of ASCII: tab, line feed, vertical tab, form
    feed, carriage return and space. *)
Definition isSpace (c : ascii) : bool :=
  let n := nat_of_ascii c in
  (((9 <=? n) && (n <=? 13)) || (n =? 32))%nat.

Fixpoint asciiOnly (s : string) : bool :=
  match s with
  | EmptyString => true
  | String c rest => (nat_of_ascii c <? 128)%nat && asciiOnly rest
  end.

Fixpoint hasSpace (s : string) : bool :=
  match s with
  | EmptyString => false
  | String c rest => isSpace c || hasSpace rest
  end.

Fixpoint mentions (c : ascii) (s : string) : bool :=
  match s with
  | EmptyString => false
  | String x rest => Ascii.eqb x c || mentions c rest
  end.

(** [cmd\s] at the start of [s]. *)
Definition commandHere (cmd s : string) : bool :=
  String.prefix cmd s
  && match JS.drop (String.length cmd) s with
     | String c _ => isSpace c
     | EmptyString => false
     end.

(** [\s*cmd\s] at the start of [s]. *)
Fixpoint afterSpaces (cmd s : string) : bool :=
  commandHere cmd s
  || match s with
     | String c rest => isSpace c && afterSpaces cmd rest
     | EmptyString => false
     end.

(** [sep\s*cmd\s] somewhere in [s], for a separator taken literally. *)
Fixpoint somewhere (sep cmd s : string) : bool :=
  (String.prefix sep s && afterSpaces cmd (JS.drop (String.length sep) s))
  || match s with
     | String _ rest => somewhere sep cmd rest
     | EmptyString => false
     end.

Definition isFileReadCommand (command : string) : bool :=
  existsb
    (fun cmd =>
       let patterns :=
         [commandHere cmd;     (* cat .env *)
          somewhere "|" cmd;   (* | cat *)
          somewhere ";" cmd;   (* ; cat *)
          somewhere "&&" cmd]  (* && cat *) in
       existsb (fun p => p command) patterns)
    FILE_READ_COMMANDS.

(** [String.prototype.indexOf]: where the first occurrence of [pat] in [s]
    starts, if there is one. *)
Fixpoint indexOf (pat s : string) : option nat :=
  if String.prefix pat s then Some 0%nat
  else match s with
       | EmptyString => None
       | String _ rest => S <$> indexOf pat rest
       end.

(** [String.prototype.slice(0, n)]. *)
Fixpoint take (n : nat) (s : string) : string :=
  match n, s with
  | S n', String c rest => String c (take n' rest)
  | _, _ => EmptyString
  end.

(** [hookSpecificOutput], with the one field of [updatedInput]. *)
Record HookOutput : Type := mkHookOutput {
  permissionDecision : string;
  updatedCommand : string
}.

Section Hook.

(** The three helpers of the hook that the post does not list, by what they
    return ([None] for [null]). *)
Context (extractSensitiveFilePath : string -> option string).
Context (isSensitiveFile : string -> bool).
Context (createRedactedFile : string -> option string).

(** [!x] fails for a text that is there and not empty. *)
Definition present (x : option string) : option string :=
  match x with
  | Some EmptyString | None => None
  | Some text => Some text
  end.

(** [handleBashTool(input)], by [input.tool_input.command].  The replacement
    text of [replace] is taken literally, as JavaScript does for a text
    without [$]. *)
Definition handleBashTool (tool_input_command : option string) : option HookOutput :=
  match present tool_input_command with
  | None => None
  | Some command =>
      if negb (isFileReadCommand command) then None
      else match present (extractSensitiveFilePath command) with
           | None => None
           | Some filePath =>
               if negb (isSensitiveFile filePath) then None
               else match present (createRedactedFile filePath) with
                    | None => None
                    | Some redactedPath =>
                        let newCommand := JS.replace filePath redactedPath command in
                        Some {| permissionDecision := "allow";
                                updatedCommand := newCommand |}
                    end
           end
  end.

End Hook.

End Redact.

(** * Properties *)

(** ** Strings *)

Lemma append_cons (x : ascii) (a b : string) :
  String x a +:+ b = String x (a +:+ b).
Proof. reflexivity. Qed.

Lemma append_assoc (a b c : string) : (a +:+ b) +:+ c = a +:+ (b +:+ c).
Proof.
  induction a as [|x a IH]; [reflexivity |].
  by rewrite !append_cons, IH.
Qed.

Lemma append_empty_r (a : string) : a +:+ EmptyString = a.
Proof.
  induction a as [|x a IH]; [reflexivity |].
  by rewrite append_cons, IH.
Qed.

Lemma prefix_cons (a b : ascii) (s t : string) :
  String.prefix (String a s) (String b t)
  = if ascii_dec a b then String.prefix s t else false.
Proof. reflexivity. Qed.

Lemma includes_cons (pat : string) (c : ascii) (s : string) :
  JS.includes pat (String c s)
  = if String.prefix pat (String c s) then true else JS.includes pat s.
Proof. reflexivity. Qed.

Lemma replace_cons (pat rep : string) (c : ascii) (s : string) :
  JS.replace pat rep (String c s)
  = if String.prefix pat (String c s)
    then rep +:+ JS.drop (String.length pat) (String c s)
    else String c (JS.replace pat rep s).
Proof. reflexivity. Qed.

(** A name without the pattern is left as it is. *)
Lemma replace_absent (pat rep s : string) :
  JS.includes pat s = false -> JS.replace pat rep s = s.
Proof.
  induction s as [|c s IH].
  - destruct pat; [discriminate | reflexivity].
  - rewrite includes_cons, replace_cons.
    destruct (String.prefix pat (String c s)); [discriminate |].
    intros Hs. by rewrite IH.
Qed.

(** No occurrence of [.md] can start inside [stem] and end inside the
    extension appended to it. *)
Lemma prefix_md_app (stem : string) :
  String.prefix ".md" stem = false ->
  stem <> EmptyString ->
  String.prefix ".md" (stem +:+ ".md") = false.
Proof.
  destruct stem as [|c1 s1]; [congruence |]. intros H _. revert H.
  rewrite append_cons, !prefix_cons.
  destruct (ascii_dec "."%char c1); [| reflexivity].
  destruct s1 as [|c2 s2]; [reflexivity |].
  rewrite append_cons, !prefix_cons.
  destruct (ascii_dec "m"%char c2); [| reflexivity].
  destruct s2 as [|c3 s3]; [reflexivity |].
  rewrite append_cons, !prefix_cons.
  destruct (ascii_dec "d"%char c3); [| reflexivity].
  destruct s3; discriminate.
Qed.

(** A name whose only [.md] is its extension loses exactly the extension. *)
Lemma replace_md_suffix (stem : string) :
  JS.includes ".md" stem = false ->
  JS.replace ".md" "" (stem +:+ ".md") = stem.
Proof.
  induction stem as [|c s IH]; [reflexivity |].
  rewrite includes_cons.
  destruct (String.prefix ".md" (String c s)) eqn:Hp; [discriminate |].
  intros Hs. rewrite append_cons, replace_cons, <- append_cons.
  rewrite prefix_md_app by (done || discriminate).
  by rewrite IH.
Qed.

Lemma stripExtension_cons (c : ascii) (rest : string) :
  stripExtension (String c rest)
  = if JS.includes "." rest then String c (stripExtension rest)
    else if Ascii.eqb c "."%char then EmptyString else String c rest.
Proof. reflexivity. Qed.

Lemma includes_dot_md (s : string) : JS.includes "." (s +:+ ".md") = true.
Proof.
  induction s as [|c s IH]; [reflexivity |].
  rewrite append_cons, includes_cons.
  by destruct (String.prefix "." (String c (s +:+ ".md"))).
Qed.

(** Removing the extension of [stem.md] gives [stem]. *)
Lemma stripExtension_md (stem : string) :
  stripExtension (stem +:+ ".md") = stem.
Proof.
  induction stem as [|c s IH]; [reflexivity |].
  by rewrite append_cons, stripExtension_cons, includes_dot_md, IH.
Qed.

(** ** The world monad *)

Lemma readdirSync_eq p w :
  readdirSync p w
  = let w' := mkWorld (fs w) (trace w ++ [EvReaddir p]) in
    match fs w !! p with
    | Some (Dir names) => (Ok names, w')
    | Some (File _) => (Throw (ENOTDIR p), w')
    | None => (Throw (ENOENT p), w')
    end.
Proof. reflexivity. Qed.

Lemma writeFileSync_eq p c w :
  writeFileSync p c w
  = let tr := trace w ++ [EvWriteFile p c] in
    match fs w !! p with
    | Some (Dir _) => (Throw (EISDIR p), mkWorld (fs w) tr)
    | _ => (Ok tt, mkWorld (<[p := File c]> (fs w)) tr)
    end.
Proof. reflexivity. Qed.

Section StorkFacts.

Context (host : Host).

Lemma configStep_eq config fileName w :
  configStep host config fileName w
  = let w' := mkWorld (fs w) (trace w ++ [EvReadFile (fullPath host fileName)]) in
    match fs w !! fullPath host fileName with
    | Some (File c) =>
        match matter host c with
        | Ok m => (Ok (config +:+ entryText fileName (data m)), w')
        | Throw e => (Throw e, w')
        end
    | Some (Dir _) => (Throw (EISDIR (fullPath host fileName)), w')
    | None => (Throw (ENOENT (fullPath host fileName)), w')
    end.
Proof.
  unfold configStep, readFileSync, bind, emit; simpl.
  destruct (fs w !! fullPath host fileName) as [[c|names]|]; try reflexivity.
  by destruct (matter host c).
Qed.

Lemma configStep_frontmatter config fileName w r w' :
  configStep host config fileName w = (r, w') ->
  w' = mkWorld (fs w) (trace w ++ [EvReadFile (fullPath host fileName)])
  ∧ match r with
    | Ok config' =>
        ∃ d, frontmatterOf host (fs w) fileName = Some d
             ∧ config' = config +:+ renderEntry (entryOf fileName d)
    | Throw _ => frontmatterOf host (fs w) fileName = None
    end.
Proof.
  rewrite configStep_eq. unfold frontmatterOf. simpl.
  destruct (fs w !! fullPath host fileName) as [[c|names]|].
  - destruct (matter host c) as [m|e]; intros [= <- <-]; split; eauto.
  - intros [= <- <-]; split; eauto.
  - intros [= <- <-]; split; eauto.
Qed.

(** The loop only reads: it leaves the file system alone, and it returns the
    configuration extended by one entry per name, in order, unless one of
    the files cannot be read or parsed. *)
Lemma forEach_inv names : forall config w r w',
  forEach host names config w = (r, w') ->
  fs w' = fs w
  ∧ (∃ evs, trace w' = trace w ++ evs ∧ Forall quiet evs)
  ∧ match r with
    | Ok config' =>
        ∃ ds, Forall2 (fun n d => frontmatterOf host (fs w) n = Some d) names ds
              ∧ config' = config +:+ renderEntries (zip_with entryOf names ds)
    | Throw _ => ∃ n, n ∈ names ∧ frontmatterOf host (fs w) n = None
    end.
Proof.
  induction names as [|n names IH]; intros config w r w'.
  - intros [= <- <-]. split; [done |]. split.
    + exists []. by rewrite app_nil_r.
    + exists []. split; [constructor |]. simpl. by rewrite append_empty_r.
  - simpl. unfold bind.
    destruct (configStep host config n w) as [[config1|e] w1] eqn:Hstep;
      apply configStep_frontmatter in Hstep as [-> Hr].
    + destruct Hr as (d & Hd & ->). intros Hrest.
      apply IH in Hrest as (Hfs & (evs & Htr & Hq) & Hres). simpl in *.
      split; [done |]. split.
      * exists (EvReadFile (fullPath host n) :: evs). split.
        -- rewrite Htr. by rewrite <- app_assoc.
        -- constructor; [by split | done].
      * destruct r as [config'|e].
        -- destruct Hres as (ds & Hds & ->). exists (d :: ds). split.
           ++ by constructor.
           ++ simpl. by rewrite append_assoc.
        -- destruct Hres as (n' & Hin & Hnone). exists n'. split; [|done].
           by apply list_elem_of_further.
    + intros [= <- <-]. simpl. split; [done |]. split.
      * exists [EvReadFile (fullPath host n)]. split; [done |].
        constructor; [by split | constructor].
      * exists n. split; [apply list_elem_of_here | done].
Qed.

(** [createConfig] touches no file but the configuration; when it returns,
    the configuration lists one entry per enumerated name; when it throws,
    the directory could not be enumerated, a file could not be read or
    parsed, or the configuration could not be written. *)
Lemma createConfig_inv w r w1 :
  createConfig host w = (r, w1) ->
  (forall p, p <> configPath host -> fs w1 !! p = fs w !! p)
  ∧ (∃ evs, trace w1 = trace w ++ evs ∧ Forall (fun ev => isExec ev = false) evs)
  ∧ match r with
    | Ok _ =>
        ∃ names ds,
          fs w !! postsDirectory host = Some (Dir names)
          ∧ Forall2 (fun n d => frontmatterOf host (fs w) n = Some d) names ds
          ∧ fs w1 = <[configPath host :=
                        File (configText (zip_with entryOf names ds))]> (fs w)
          ∧ ∃ evs, Forall quiet evs
                   ∧ trace w1 = trace w ++ evs
                       ++ [EvWriteFile (configPath host)
                             (configText (zip_with entryOf names ds))]
    | Throw _ =>
        fs w1 = fs w
        ∧ ((forall names, fs w !! postsDirectory host <> Some (Dir names))
           ∨ (∃ names n, fs w !! postsDirectory host = Some (Dir names)
                         ∧ n ∈ names ∧ frontmatterOf host (fs w) n = None)
           ∨ (∃ names, fs w !! configPath host = Some (Dir names)))
    end.
Proof.
  unfold createConfig, bind. rewrite readdirSync_eq. simpl.
  destruct (fs w !! postsDirectory host) as [[c|names]|] eqn:Hdir.
  - intros [= <- <-]. simpl. split; [done |]. split.
    + exists [EvReaddir (postsDirectory host)]. split; [done |]. by repeat constructor.
    + split; [done |]. left. congruence.
  - destruct (forEach host names configHeader _) as [[config|e] w2] eqn:Hloop;
      apply forEach_inv in Hloop as (Hfs & (evs & Htr & Hq) & Hres); simpl in *.
    + destruct Hres as (ds & Hds & ->).
      rewrite writeFileSync_eq, Hfs, Htr. simpl.
      assert (Hquiet : Forall (fun ev => isExec ev = false)
                         (EvReaddir (postsDirectory host) :: evs)).
      { constructor; [done |]. eapply Forall_impl; [exact Hq |]. by intros ? []. }
      destruct (fs w !! configPath host) as [[c|names']|] eqn:Hcfg.
      all: intros [= <- <-]; simpl.
      all: split; [intros p Hp; by rewrite ?lookup_insert_ne |].
      all: split; [eexists (_ :: evs ++ [_]); split;
                     [by rewrite <- !app_assoc |];
                   rewrite app_comm_cons; apply Forall_app; split;
                     [exact Hquiet | by repeat constructor] |].
      2: { split; [done |]. right. right. eauto. }
      all: exists names, ds; split; [done |]; split; [done |].
      all: unfold configText; rewrite <- append_assoc; split; [done |].
      all: exists (EvReaddir (postsDirectory host) :: evs); split;
             [constructor; [by split | done] | by rewrite <- !app_assoc].
    + intros [= <- <-]. rewrite Hfs. split; [done |]. split.
      * exists (EvReaddir (postsDirectory host) :: evs). split.
        -- rewrite Htr. by rewrite <- app_assoc.
        -- constructor; [done |]. eapply Forall_impl; [exact Hq |]. by intros ? [].
      * split; [done |]. right. left. destruct Hres as (n & Hin & Hnone). eauto.
  - intros [= <- <-]. simpl. split; [done |]. split.
    + exists [EvReaddir (postsDirectory host)]. split; [done |]. by repeat constructor.
    + split; [done |]. left. congruence.
Qed.

(** [generateStorkIndex], case by case. *)
Lemma generateStorkIndex_eq w :
  generateStorkIndex host w
  = match createConfig host w with
    | (Throw e, w1) => (Throw e, w1)
    | (Ok _, w1) =>
        let tr := trace w1 ++ [EvExec (storkCommand host)] in
        match run host (storkCommand host) (fs w1) with
        | SpawnFailed code =>
            (Ok tt, mkWorld (fs w1) (tr ++ [EvConsoleError (SpawnError code)]))
        | Exited status out err fs' =>
            if status =? 0
            then (Ok tt, mkWorld fs' (tr ++ [EvStderr err]))
            else (Ok tt, mkWorld fs' ((tr ++ [EvStderr err])
                           ++ [EvConsoleError (ExecError status out err)]))
        end
    end.
Proof.
  unfold generateStorkIndex, bind at 1.
  destruct (createConfig host w) as [[[]|e] w1]; [| reflexivity].
  unfold try_catch, bind, execSync, bind, emit, console_error, emit, ret. simpl.
  destruct (run host (storkCommand host) (fs w1)) as [code|status out err fs'];
    [reflexivity |].
  by destruct (status =? 0).
Qed.

(** Once the configuration is written the step cannot throw: the process is
    started, and whatever it does, only console output follows. *)
Lemma generateStorkIndex_after_config w w1 :
  createConfig host w = (Ok tt, w1) ->
  let outcome := run host (storkCommand host) (fs w1) in
  ∃ tail,
    generateStorkIndex host w
    = (Ok tt, mkWorld (fsAfter outcome (fs w1))
                (trace w1 ++ EvExec (storkCommand host) :: tail))
    ∧ Forall quiet tail
    ∧ match indexerFailure outcome with
      | Some e => ∃ mid, tail = mid ++ [EvConsoleError e]
      | None => True
      end.
Proof.
  intros Hc outcome. rewrite generateStorkIndex_eq, Hc. subst outcome.
  destruct (run host (storkCommand host) (fs w1)) as [code|status out err fs'];
    simpl.
  - exists [EvConsoleError (SpawnError code)].
    split; [by rewrite <- app_assoc |]. split; [by repeat constructor |].
    by exists [].
  - destruct (status =? 0).
    + exists [EvStderr err]. split; [by rewrite <- app_assoc |].
      split; [by repeat constructor | done].
    + exists [EvStderr err; EvConsoleError (ExecError status out err)].
      split; [by rewrite <- !app_assoc |]. split; [by repeat constructor |].
      by exists [EvStderr err].
Qed.

(** C1: a failing indexer (a launch failure or a non-zero exit status) does
    not fail the step.  Once the configuration is written,
    [generateStorkIndex] returns normally; the error is the last thing
    printed to the console; the handler writes no file, so the file system is
    as the child process left it (untouched when it could not be started);
    and the step itself has written nothing but the configuration file. *)
Theorem generateStorkIndex_survives_indexer_failure w w1 e :
  createConfig host w = (Ok tt, w1) ->
  indexerFailure (run host (storkCommand host) (fs w1)) = Some e ->
  ∃ w2 mid,
    generateStorkIndex host w = (Ok tt, w2)
    ∧ trace w2 = trace w1 ++ EvExec (storkCommand host) :: mid ++ [EvConsoleError e]
    ∧ Forall quiet mid
    ∧ fs w2 = fsAfter (run host (storkCommand host) (fs w1)) (fs w1)
    ∧ (forall p, p <> configPath host -> fs w1 !! p = fs w !! p)
    ∧ (forall code, run host (storkCommand host) (fs w1) = SpawnFailed code ->
       forall p, p <> configPath host -> fs w2 !! p = fs w !! p).
Proof.
  intros Hc Hfail.
  destruct (generateStorkIndex_after_config w w1 Hc) as (tail & Hrun & Hq & Hlast).
  rewrite Hfail in Hlast. destruct Hlast as (mid & ->).
  apply createConfig_inv in Hc as (Hother & _).
  eexists _, mid. split; [exact Hrun |]. simpl.
  split; [done |]. split; [by apply Forall_app in Hq as [] |].
  split; [done |]. split; [done |].
  intros code -> p Hp. simpl. by apply Hother.
Qed.

(** In a run of [generateStorkIndex], a start of a process is the start of
    the indexer and has the write of the configuration before it. *)
Lemma launch_after_config_write w :
  ∃ evs,
    trace (generateStorkIndex host w).2 = trace w ++ evs
    ∧ forall i cmd, evs !! i = Some (EvExec cmd) ->
        cmd = storkCommand host
        ∧ ∃ j text w1,
            (j < i)%nat
            ∧ evs !! j = Some (EvWriteFile (configPath host) text)
            ∧ configPath host = path_join host (cwd host) "stork-posts.toml"
            ∧ createConfig host w = (Ok tt, w1)
            ∧ fs w1 !! configPath host = Some (File text).
Proof.
  destruct (createConfig host w) as [[[]|e] w1] eqn:Hc.
  - destruct (generateStorkIndex_after_config w w1 Hc) as (tail & -> & Hq & _).
    apply createConfig_inv in Hc
      as (_ & _ & names & ds & _ & _ & Hfs & evs0 & Hq0 & Htr).
    set (text := configText (zip_with entryOf names ds)) in *.
    exists (evs0 ++ EvWriteFile (configPath host) text
                 :: EvExec (storkCommand host) :: tail).
    split.
    { simpl. rewrite Htr. by rewrite <- !app_assoc. }
    intros i cmd Hi. apply lookup_app_Some in Hi as [Hi | [Hlen Hi]].
    { apply (Forall_lookup_1 _ _ _ _ Hq0) in Hi as [? _]. done. }
    destruct (i - length evs0)%nat as [|[|k]] eqn:Hk; simpl in Hi.
    + done.
    + injection Hi as <-. split; [done |].
      exists (length evs0), text, w1. split; [lia |].
      split; [by rewrite list_lookup_middle |]. split; [done |].
      split; [done |]. by rewrite Hfs, lookup_insert_eq.
    + apply (Forall_lookup_1 _ _ _ _ Hq) in Hi as [? _]. done.
  - rewrite generateStorkIndex_eq, Hc. simpl.
    apply createConfig_inv in Hc as (_ & (evs & Htr & Hq) & _).
    exists evs. split; [done |]. intros i cmd Hi.
    by apply (Forall_lookup_1 _ _ _ _ Hq) in Hi.
Qed.

(** C5: every run of [generateStorkIndex] in which [createConfig] returns
    writes the configuration to [stork-posts.toml] in the working directory
    and then, as its very next effect, starts the indexer, on a file system
    in which the file holds the text written; the run writes no other file
    and starts no other process.  A run in which [createConfig] throws
    starts no process at all.  So in every run a start of a process is the
    start of the indexer and has the write of the configuration before
    it. *)
Theorem generateStorkIndex_writes_config_before_launch w :
  match createConfig host w with
  | (Ok _, w1) =>
      ∃ before text after,
        trace (generateStorkIndex host w).2
        = trace w ++ before
            ++ EvWriteFile (configPath host) text
               :: EvExec (storkCommand host) :: after
        ∧ Forall quiet before
        ∧ Forall quiet after
        ∧ configPath host = path_join host (cwd host) "stork-posts.toml"
        ∧ fs w1 !! configPath host = Some (File text)
        ∧ fs (generateStorkIndex host w).2
          = fsAfter (run host (storkCommand host) (fs w1)) (fs w1)
  | (Throw e, w1) =>
      generateStorkIndex host w = (Throw e, w1)
      ∧ ∃ evs, trace w1 = trace w ++ evs
               ∧ Forall (fun ev => isExec ev = false) evs
  end
  ∧ ∃ evs,
      trace (generateStorkIndex host w).2 = trace w ++ evs
      ∧ forall i cmd, evs !! i = Some (EvExec cmd) ->
          cmd = storkCommand host
          ∧ ∃ j text w1,
              (j < i)%nat
              ∧ evs !! j = Some (EvWriteFile (configPath host) text)
              ∧ configPath host = path_join host (cwd host) "stork-posts.toml"
              ∧ createConfig host w = (Ok tt, w1)
              ∧ fs w1 !! configPath host = Some (File text).
Proof.
  split; [| apply launch_after_config_write].
  destruct (createConfig host w) as [[[]|e] w1] eqn:Hc.
  - destruct (generateStorkIndex_after_config w w1 Hc) as (tail & -> & Hq & _).
    apply createConfig_inv in Hc
      as (_ & _ & names & ds & _ & _ & Hfs & evs0 & Hq0 & Htr).
    exists evs0, (configText (zip_with entryOf names ds)), tail.
    split; [simpl; rewrite Htr; by rewrite <- !app_assoc |].
    split; [done |]. split; [done |]. split; [done |].
    split; [by rewrite Hfs, lookup_insert_eq | done].
  - rewrite generateStorkIndex_eq, Hc. split; [done |].
    by apply createConfig_inv in Hc as (_ & Htr & _).
Qed.

(** C2: the configuration that [createConfig] writes has exactly one entry
    per enumerated file, in the order of enumeration, each with the file's
    name as its path.  For a name whose only [.md] is its extension the url
    is the name without the extension; a name without [.md] is its own
    url. *)
Theorem createConfig_one_entry_per_file w w1 :
  createConfig host w = (Ok tt, w1) ->
  ∃ names entries,
    fs w !! postsDirectory host = Some (Dir names)
    ∧ fs w1 !! configPath host = Some (File (configText entries))
    ∧ length entries = length names
    ∧ forall i name, names !! i = Some name ->
        ∃ e, entries !! i = Some e
             ∧ path e = name
             ∧ (forall stem, name = stem +:+ ".md" ->
                JS.includes ".md" stem = false ->
                url e = stem ∧ url e = stripExtension name)
             ∧ (JS.includes ".md" name = false -> url e = name).
Proof.
  intros Hc.
  apply createConfig_inv in Hc as (_ & _ & names & ds & Hdir & Hds & Hfs & _).
  exists names, (zip_with entryOf names ds).
  split; [done |]. split; [by rewrite Hfs, lookup_insert_eq |].
  split.
  { rewrite length_zip_with. apply Forall2_length in Hds. lia. }
  intros i name Hi.
  destruct (Forall2_lookup_l _ _ _ _ _ Hds Hi) as (d & Hd & _).
  exists (entryOf name d). rewrite lookup_zip_with, Hi, Hd. simpl.
  split; [done |]. split; [done |]. split.
  - intros stem -> Hstem. rewrite stripExtension_md.
    by rewrite replace_md_suffix.
  - intros Hname. by apply replace_absent.
Qed.

Lemma entries_agree fs1 fs2 names : forall ds1 ds2,
  Forall2 (fun n d => frontmatterOf host fs1 n = Some d) names ds1 ->
  Forall2 (fun n d => frontmatterOf host fs2 n = Some d) names ds2 ->
  (forall n, n ∈ names ->
     (fun d => JS.get d "title") <$> frontmatterOf host fs1 n
     = (fun d => JS.get d "title") <$> frontmatterOf host fs2 n) ->
  zip_with entryOf names ds1 = zip_with entryOf names ds2.
Proof.
  induction names as [|n names IH]; intros ds1 ds2 H1 H2 Htitle.
  - by inversion H1; inversion H2.
  - inversion H1 as [|? d1 ? ds1' Hd1 H1']; subst.
    inversion H2 as [|? d2 ? ds2' Hd2 H2']; subst. simpl.
    pose proof (Htitle n (list_elem_of_here _ _)) as Hn.
    rewrite Hd1, Hd2 in Hn. injection Hn as Hn.
    f_equal.
    + unfold entryOf. by rewrite Hn.
    + apply IH; [done | done |]. intros n' Hin. apply Htitle.
      by apply list_elem_of_further.
Qed.

(** C9: an entry of the configuration depends on nothing but the file's name
    and the [title] of its frontmatter.  Two content directories with the
    same file names, whose files agree on [title] name by name, get the same
    configuration text, whatever else differs in the files (body, date,
    tags, description, draft flag); and a file whose frontmatter says
    [draft: true] has its entry in the configuration like any other file. *)
Theorem createConfig_entry_from_name_and_title w1 w2 w1' w2' names :
  fs w1 !! postsDirectory host = Some (Dir names) ->
  fs w2 !! postsDirectory host = Some (Dir names) ->
  (forall n, n ∈ names ->
     (fun d => JS.get d "title") <$> frontmatterOf host (fs w1) n
     = (fun d => JS.get d "title") <$> frontmatterOf host (fs w2) n) ->
  createConfig host w1 = (Ok tt, w1') ->
  createConfig host w2 = (Ok tt, w2') ->
  fs w1' !! configPath host = fs w2' !! configPath host
  ∧ ∃ entries,
      fs w1' !! configPath host = Some (File (configText entries))
      ∧ length entries = length names
      ∧ forall i n d,
          names !! i = Some n ->
          frontmatterOf host (fs w1) n = Some d ->
          d !! "draft" = Some (JS.Bool true) ->
          entries !! i
          = Some {| path := n; url := JS.replace ".md" "" n;
                    title := JS.toString (JS.get d "title") |}.
Proof.
  intros Hdir1 Hdir2 Htitle Hc1 Hc2.
  apply createConfig_inv in Hc1 as (_ & _ & names1 & ds1 & Hd1 & Hds1 & Hfs1 & _).
  apply createConfig_inv in Hc2 as (_ & _ & names2 & ds2 & Hd2 & Hds2 & Hfs2 & _).
  rewrite Hdir1 in Hd1. injection Hd1 as <-.
  rewrite Hdir2 in Hd2. injection Hd2 as <-.
  rewrite Hfs1, Hfs2, !lookup_insert_eq.
  split.
  - by rewrite (entries_agree _ _ _ _ _ Hds1 Hds2 Htitle).
  - exists (zip_with entryOf names ds1). split; [done |]. split.
    { rewrite length_zip_with. apply Forall2_length in Hds1. lia. }
    intros i n d Hi Hd _.
    destruct (Forall2_lookup_l _ _ _ _ _ Hds1 Hi) as (d' & Hd' & Hfm).
    rewrite Hd in Hfm. injection Hfm as <-.
    by rewrite lookup_zip_with, Hi, Hd'.
Qed.

(** C10: only the launch of the indexer is guarded.  Whatever [createConfig]
    throws, [generateStorkIndex] throws, in the same world; [createConfig]
    does throw when the posts directory cannot be enumerated, when one of
    its files cannot be read, when the frontmatter of one cannot be parsed,
    and when the configuration cannot be written; and once [createConfig]
    has returned, [generateStorkIndex] returns normally whatever the indexer
    process does, its error, if any, caught and printed. *)
Theorem generateStorkIndex_guards_only_the_launch w :
  (forall e w1, createConfig host w = (Throw e, w1) ->
     generateStorkIndex host w = (Throw e, w1))
  ∧ ((forall names, fs w !! postsDirectory host <> Some (Dir names)) ->
     ∃ e w1, generateStorkIndex host w = (Throw e, w1))
  ∧ (forall names n,
       fs w !! postsDirectory host = Some (Dir names) -> n ∈ names ->
       (forall c, fs w !! fullPath host n <> Some (File c)) ->
       ∃ e w1, generateStorkIndex host w = (Throw e, w1))
  ∧ (forall names n c e',
       fs w !! postsDirectory host = Some (Dir names) -> n ∈ names ->
       fs w !! fullPath host n = Some (File c) -> matter host c = Throw e' ->
       ∃ e w1, generateStorkIndex host w = (Throw e, w1))
  ∧ (forall names, fs w !! configPath host = Some (Dir names) ->
     ∃ e w1, generateStorkIndex host w = (Throw e, w1))
  ∧ (forall w1, createConfig host w = (Ok tt, w1) ->
     ∃ w2, generateStorkIndex host w = (Ok tt, w2)
           ∧ forall e, indexerFailure (run host (storkCommand host) (fs w1)) = Some e ->
               last (trace w2) = Some (EvConsoleError e)).
Proof.
  assert (Hprop : forall e w1, createConfig host w = (Throw e, w1) ->
                    generateStorkIndex host w = (Throw e, w1)).
  { intros e w1 Hc. by rewrite generateStorkIndex_eq, Hc. }
  assert (Hthrows : (forall w1, createConfig host w <> (Ok tt, w1)) ->
                    ∃ e w1, generateStorkIndex host w = (Throw e, w1)).
  { intros Hno. destruct (createConfig host w) as [[[]|e] w1] eqn:Hc.
    - by destruct (Hno w1).
    - exists e, w1. by apply Hprop. }
  split; [exact Hprop |]. repeat split.
  - intros Hdir. apply Hthrows. intros w1 Hc.
    apply createConfig_inv in Hc as (_ & _ & names & ds & Hd & _).
    by destruct (Hdir names).
  - intros names n Hdir Hin Hfile. apply Hthrows. intros w1 Hc.
    apply createConfig_inv in Hc as (_ & _ & names' & ds & Hd & Hds & _).
    rewrite Hdir in Hd. injection Hd as <-.
    apply list_elem_of_lookup in Hin as [i Hi].
    destruct (Forall2_lookup_l _ _ _ _ _ Hds Hi) as (d & _ & Hfm).
    unfold frontmatterOf in Hfm.
    destruct (fs w !! fullPath host n) as [[c|?]|] eqn:Hn; try done.
    by destruct (Hfile c).
  - intros names n c e' Hdir Hin Hfile Hparse. apply Hthrows. intros w1 Hc.
    apply createConfig_inv in Hc as (_ & _ & names' & ds & Hd & Hds & _).
    rewrite Hdir in Hd. injection Hd as <-.
    apply list_elem_of_lookup in Hin as [i Hi].
    destruct (Forall2_lookup_l _ _ _ _ _ Hds Hi) as (d & _ & Hfm).
    unfold frontmatterOf in Hfm. by rewrite Hfile, Hparse in Hfm.
  - intros names Hcfg. apply Hthrows. intros w1 Hc.
    pose proof Hc as Hc'. unfold createConfig, bind in Hc'.
    rewrite readdirSync_eq in Hc'. simpl in Hc'.
    destruct (fs w !! postsDirectory host) as [[?|names']|]; try done.
    destruct (forEach host names' configHeader _) as [[config|e] w2] eqn:Hloop;
      [| done].
    apply forEach_inv in Hloop as (Hfs & _). simpl in Hfs.
    rewrite writeFileSync_eq, Hfs, Hcfg in Hc'. done.
  - intros w1 Hc.
    destruct (generateStorkIndex_after_config w w1 Hc) as (tail & Hrun & _ & Hlast).
    eexists. split; [exact Hrun |]. intros e He. rewrite He in Hlast.
    destruct Hlast as (mid & ->). simpl.
    rewrite app_comm_cons, app_assoc. apply last_snoc.
Qed.

End StorkFacts.

(** ** The content loader *)

Section LoaderFacts.

Import Loader.

Lemma earlier_irrefl (a : Date) : ~ earlier a a.
Proof. unfold earlier. lia. Qed.

Lemma earlier_trans (a b c : Date) : earlier a b -> earlier b c -> earlier a c.
Proof. unfold earlier. lia. Qed.

Lemma earlier_asym (a b : Date) : earlier a b -> ~ earlier b a.
Proof. unfold earlier. lia. Qed.

Lemma earlier_trichotomy (a b : Date) : earlier a b ∨ a = b ∨ earlier b a.
Proof.
  destruct a as [y1 m1 d1], b as [y2 m2 d2]. unfold earlier. simpl.
  destruct (Z.lt_trichotomy y1 y2) as [?|[->|?]]; [lia | | lia].
  destruct (Z.lt_trichotomy m1 m2) as [?|[->|?]]; [lia | | lia].
  destruct (Z.lt_trichotomy d1 d2) as [?|[->|?]]; [lia | | lia].
  right. by left.
Qed.

#[local] Instance before_total : Total before.
Proof.
  intros p q. unfold before.
  destruct (earlier_trichotomy (date p) (date q)) as [H|[H|H]].
  - right. by left.
  - destruct (total String.le (fileName p) (fileName q)).
    + left. right. done.
    + right. right. done.
  - left. by left.
Qed.

#[local] Instance before_trans : Transitive before.
Proof.
  intros p q r [Hpq|[Hpq Hfpq]] [Hqr|[Hqr Hfqr]]; unfold before.
  - left. by eapply earlier_trans.
  - left. by rewrite <- Hqr.
  - left. by rewrite Hpq.
  - right. split; [congruence |]. by etrans.
Qed.

Lemma StronglySorted_lookup {A} (R : relation A) (l : list A) :
  StronglySorted R l ->
  forall i j x y, (i < j)%nat -> l !! i = Some x -> l !! j = Some y -> R x y.
Proof.
  induction 1 as [|a l Hl IH Ha]; intros i j x y Hij Hi Hj; [done |].
  destruct j as [|j]; [lia |]. destruct i as [|i]; simpl in *.
  - injection Hi as <-. by apply (Forall_lookup_1 _ _ _ _ Ha Hj).
  - apply (IH i j); [lia | done | done].
Qed.

(** C7: the sequence [loadAll] returns is a rearrangement of the posts
    parsed from the directory in which no post stands before one dated
    later, and of two posts of the same date the one standing first has the
    lexically smaller (or equal) file name. *)
Theorem loadAll_date_descending (host : Host) (dir : list (string * string))
    (posts : list Post) :
  loadAll host dir = inr posts ->
  StronglySorted before posts
  ∧ (∃ parsed, parseAll host dir = inr parsed ∧ posts ≡ₚ parsed)
  ∧ forall i j p q,
      (i < j)%nat -> posts !! i = Some p -> posts !! j = Some q ->
      ~ earlier (date p) (date q)
      ∧ (date p = date q -> String.le (fileName p) (fileName q)).
Proof.
  unfold loadAll. destruct (parseAll host dir) as [e|parsed]; [done |].
  intros [= <-].
  assert (Hs : StronglySorted before (merge_sort before parsed)).
  { apply StronglySorted_merge_sort; apply _. }
  split; [done |]. split.
  { exists parsed. split; [done |]. apply merge_sort_Permutation. }
  intros i j p q Hij Hp Hq.
  destruct (StronglySorted_lookup _ _ Hs i j p q Hij Hp Hq) as [Hlt|[Heq Hle]].
  - split; [by apply earlier_asym |]. intros Heq. rewrite Heq in Hlt.
    by apply earlier_irrefl in Hlt.
  - split; [| done]. rewrite Heq. apply earlier_irrefl.
Qed.

End LoaderFacts.

(** ** The feed generator *)

Section FeedFacts.

Context (host : Host).





End FeedFacts.

(** ** The empty content directory *)


(** ** The statistics cache and its page *)

Section StatsFacts.

Import StatsCache.

Context (network : string -> option (list Repo)).

Lemma lookup_fresh account snap now :
  now < expiry snap -> lookup (Some (account, snap)) account now = Some snap.
Proof.
  intros Hnow. unfold lookup, isFresh.
  rewrite bool_decide_eq_true_2 by done.
  by rewrite (proj2 (Z.ltb_lt _ _) Hnow).
Qed.

(** C4: a snapshot fetched at [now] carries [now] as its fetch time and
    expires exactly 30 minutes (1 800 000 ms) later, so it is fresh at the
    times before that and at no other; and the page's revalidation budget,
    [ms('30min') / 1000], is exactly 1800 seconds. *)
Theorem ttl_is_thirty_minutes cache account now repos (stats : Stats) :
  lookup cache account now = None ->
  network account = Some repos ->
  (∃ snap,
     get network cache account now
     = {| value := inr snap; held := Some (account, snap); fetches := 1 |}
     ∧ fetchedAt snap = now
     ∧ expiry snap = fetchedAt snap + 30 * 60 * 1000
     ∧ forall t, isFresh snap t = true <-> t < fetchedAt snap + 30 * 60 * 1000)
  ∧ TTL = 30 * 60 * 1000
  ∧ Ms.ms "30min" = Some (1800 * 1000)
  ∧ (1800 * 1000) mod 1000 = 0
  ∧ revalidate (getStaticProps stats) = Some 1800.
Proof.
  intros Hmiss Hnet. split.
  - exists (aggregate repos now). unfold get. rewrite Hmiss, Hnet.
    split; [done |]. split; [done |]. split; [done |].
    intros t. unfold isFresh. simpl. unfold TTL. by rewrite Z.ltb_lt.
  - split; [done |]. split; [by vm_compute |]. split; [done |]. by vm_compute.
Qed.

End StatsFacts.

(** ** The projects page between two regenerations *)

Section ProjectsPageFacts.

Import ProjectsPage.

Context {State : Type}.
Context (statCounter : State -> Z -> option Stats * State).

Lemma getStaticProps_props (stats : Stats) :
  props (getStaticProps stats) = stats
  ∧ revalidate (getStaticProps stats) = Some 1800.
Proof. destruct stats. split; [reflexivity | by vm_compute]. Qed.

Lemma request_fresh (page : Generated) (s : State) (now : Z) :
  revalidate (static page) = Some 1800 ->
  now < generatedAt page + 1800 ->
  request statCounter (page, s) now
  = (Projects (props (static page)), (page, s)).
Proof.
  intros Hre Hnow. unfold request, fresh. simpl. rewrite Hre.
  by rewrite (proj2 (Z.ltb_lt _ _) Hnow).
Qed.

Lemma requests_fresh (page : Generated) (s : State) (times : list Z) :
  revalidate (static page) = Some 1800 ->
  Forall (fun t => t < generatedAt page + 1800) times ->
  requests statCounter (page, s) times
  = (List.map (fun _ => Projects (props (static page))) times, (page, s)).
Proof.
  intros Hre. induction times as [|t times IH]; intros Hall; [reflexivity |].
  apply Forall_cons in Hall as [Ht Hall]. simpl.
  rewrite request_fresh by done. simpl. by rewrite IH.
Qed.

(** C3, as amended: [mostRecentPushFormatted] is computed when
    [getStaticProps] runs, by the call of [statCounter], and is stored: it
    is one of the props of the page generated, which is held for the 1800
    seconds of [revalidate].  Every request before these have passed is
    answered with the paragraph that shows the string of the generation,
    whatever the time of the request, and calls [statCounter] no more.  The
    first request after them is still answered with that string; it runs
    [getStaticProps] again, and the requests after it show the string of
    that run. *)
Theorem mostRecentPushFormatted_held_between_regenerations
    (s s1 : State) (t0 : Z) (stats : Stats) (times : list Z) :
  statCounter s t0 = (Some stats, s1) ->
  Forall (fun t => t < t0 + 1800) times ->
  ∃ page,
    generate statCounter s t0 = (Some page, s1)
    ∧ generatedAt page = t0
    ∧ props (static page) = stats
    ∧ revalidate (static page) = Some 1800
    ∧ requests statCounter (page, s1) times
      = (List.map (fun _ => Projects stats) times, (page, s1))
    ∧ Text (mostRecentPushFormatted stats) ∈ Projects stats
    ∧ forall t stats' s2,
        t0 + 1800 <= t ->
        statCounter s1 t = (Some stats', s2) ->
        ∃ page',
          request statCounter (page, s1) t = (Projects stats, (page', s2))
          ∧ generatedAt page' = t
          ∧ request statCounter (page', s2) t = (Projects stats', (page', s2)).
Proof.
  intros Hcall Hall.
  destruct (getStaticProps_props stats) as [Hprops Hre].
  exists {| static := getStaticProps stats; generatedAt := t0 |}.
  split; [unfold generate; by rewrite Hcall |]. split; [done |].
  split; [done |]. split; [done |]. split.
  { rewrite requests_fresh by done.
    by replace (props (static _)) with stats by (symmetry; exact Hprops). }
  split.
  { unfold Projects. do 7 apply list_elem_of_further. apply list_elem_of_here. }
  intros t stats' s2 Ht Hcall'.
  destruct (getStaticProps_props stats') as [Hprops' Hre'].
  exists {| static := getStaticProps stats'; generatedAt := t |}.
  split; [| split; [done |]].
  - unfold request, fresh, generate. cbn [fst snd static generatedAt].
    rewrite Hre, Hcall', Hprops.
    by rewrite (proj2 (Z.ltb_ge _ _) Ht).
  - rewrite request_fresh; [| done | simpl; lia].
    by replace (props (static _)) with stats' by (symmetry; exact Hprops').
Qed.

End ProjectsPageFacts.

(** ** The properties at work on a concrete site *)

Example replace_first_occurrence_only :
  JS.replace ".md" "" "hello.md" = "hello"
  ∧ JS.replace ".md" "" "a.mdx.md" = "ax.md"
  ∧ JS.replace ".md" "" "notes.txt" = "notes.txt".
Proof. by vm_compute. Qed.

(** The indexer exits with status 1: the step returns all the same. *)
Example site_run :
  (generateStorkIndex Demo.host Demo.site).1 = Ok tt
  ∧ trace (generateStorkIndex Demo.host Demo.site).2
    = [EvReaddir "/site/posts";
       EvReadFile "/site/posts/claude-redact-env.md";
       EvReadFile "/site/posts/notes.txt";
       EvWriteFile "/site/stork-posts.toml"
         (configText
            [mkEntry "claude-redact-env.md" "claude-redact-env"
               "Hiding Secrets from Your AI Pair Programmer";
             mkEntry "notes.txt" "notes.txt" "undefined"]);
       EvExec "/site/stork.sh";
       EvStderr "stork: cannot index";
       EvConsoleError (ExecError 1 "" "stork: cannot index")].
Proof. by vm_compute. Qed.

(** The indexer is missing: the step returns all the same. *)
Example sitePublished_run :
  (generateStorkIndex Demo.host Demo.sitePublished).1 = Ok tt
  ∧ last (trace (generateStorkIndex Demo.host Demo.sitePublished).2)
    = Some (EvConsoleError (SpawnError "ENOENT")).
Proof. by vm_compute. Qed.

(** No posts directory: the step throws before anything is started. *)
Example bareSite_run :
  generateStorkIndex Demo.host Demo.bareSite
  = (Throw (ENOENT "/site/posts"),
     {| fs := ∅; trace := [EvReaddir "/site/posts"] |}).
Proof. by vm_compute. Qed.

Example directory_order :
  match Loader.loadAll Demo.host Demo.directory with
  | inr posts => Some (List.map Loader.fileName posts)
  | inl _ => None
  end = Some ["redact-a.md"; "redact-b.md"; "serviceworker-gpt-3.md"].
Proof. by vm_compute. Qed.

Example directory_tags :
  match Loader.loadAll Demo.host Demo.directory with
  | inr posts => Some (List.map Loader.tags posts)
  | inl _ => None
  end = Some [["javascript"; "claude"; "security"];
              ["javascript"; "claude"; "security"];
              ["AI"; "javascript"]].
Proof. by vm_compute. Qed.

Example thirty_minutes :
  Ms.ms "30min" = Some 1800000 ∧ Ms.ms "30 MINUTES" = Some 1800000
  ∧ Ms.ms "2h" = Some 7200000 ∧ Ms.ms "1y" = Some 31557600000
  ∧ Ms.ms "100" = Some 100 ∧ Ms.ms "min" = None.
Proof. by vm_compute. Qed.

Lemma generateStorkIndex_survives_indexer_failure_witness :
  ∃ w2 mid,
    generateStorkIndex Demo.host Demo.site = (Ok tt, w2)
    ∧ trace w2
      = trace (createConfig Demo.host Demo.site).2
        ++ EvExec "/site/stork.sh"
           :: mid ++ [EvConsoleError (ExecError 1 "" "stork: cannot index")]
    ∧ Forall quiet mid.
Proof.
  destruct (generateStorkIndex_survives_indexer_failure Demo.host Demo.site
              (createConfig Demo.host Demo.site).2
              (ExecError 1 "" "stork: cannot index"))
    as (w2 & mid & Hrun & Htrace & Hquiet & _).
  - vm_compute. reflexivity.
  - vm_compute. reflexivity.
  - exists w2, mid. split; [exact Hrun |]. split; [exact Htrace | exact Hquiet].
Defined.

(** With file names that carry another extension than [.md], the url of the
    entry is the whole file name, not the name without its extension. *)
Lemma createConfig_url_keeps_other_extension :
  let e := {| path := "notes.txt"; url := "notes.txt"; title := "undefined" |} in
  (createConfig Demo.host Demo.notesOnly).1 = Ok tt
  ∧ fs (createConfig Demo.host Demo.notesOnly).2 !! configPath Demo.host
    = Some (File (configText [e]))
  ∧ stripExtension "notes.txt" = "notes"
  ∧ url e <> stripExtension (path e).
Proof. vm_compute. repeat split; discriminate. Qed.

Lemma createConfig_one_entry_per_file_witness :
  ∃ names entries,
    fs Demo.site !! postsDirectory Demo.host = Some (Dir names)
    ∧ fs (createConfig Demo.host Demo.site).2 !! configPath Demo.host
      = Some (File (configText entries))
    ∧ length entries = length names.
Proof.
  destruct (createConfig_one_entry_per_file Demo.host Demo.site
              (createConfig Demo.host Demo.site).2)
    as (names & entries & Hdir & Hfile & Hlen & _).
  - vm_compute. reflexivity.
  - exists names, entries. split; [exact Hdir |]. split; [exact Hfile | exact Hlen].
Defined.

Lemma generateStorkIndex_writes_config_before_launch_witness :
  ∃ before text after,
    trace (generateStorkIndex Demo.host Demo.site).2
    = before
        ++ EvWriteFile "/site/stork-posts.toml" text
           :: EvExec "/site/stork.sh" :: after
    ∧ Forall quiet before
    ∧ Forall quiet after
    ∧ fs (createConfig Demo.host Demo.site).2 !! "/site/stork-posts.toml"
      = Some (File text).
Proof.
  pose proof (proj1 (generateStorkIndex_writes_config_before_launch
                       Demo.host Demo.site)) as Hrun.
  destruct Hrun as (before & text & after & Htrace & Hb & Ha & _ & Hfile & _).
  exists before, text, after. split; [exact Htrace |].
  split; [exact Hb |]. split; [exact Ha | exact Hfile].
Defined.



Lemma loadAll_date_descending_witness :
  ∃ posts,
    Loader.loadAll Demo.host Demo.directory = inr posts
    ∧ StronglySorted Loader.before posts.
Proof.
  destruct (Loader.loadAll Demo.host Demo.directory) as [e|posts] eqn:Hload.
  - vm_compute in Hload. discriminate.
  - exists posts. split; [reflexivity |].
    exact (proj1 (loadAll_date_descending Demo.host Demo.directory posts Hload)).
Defined.

Example blog_feed :
  match Loader.loadAll Demo.host Demo.directory with
  | inr posts =>
      fs (Feed.generateRssFeed Demo.host "/site/public/rss.xml" Demo.channel
            Demo.blog).2 !! "/site/public/rss.xml"
      = Some (File (Feed.render (Feed.build Demo.channel posts)))
      ∧ List.map Feed.itemLink (Feed.items (Feed.build Demo.channel posts))
        = ["https://example.org/redact-a"; "https://example.org/redact-b";
           "https://example.org/serviceworker-gpt-3"]
  | inl _ => False
  end.
Proof. by vm_compute. Qed.


Lemma createConfig_entry_from_name_and_title_witness :
  fs (createConfig Demo.host Demo.site).2 !! configPath Demo.host
  = fs (createConfig Demo.host Demo.sitePublished).2 !! configPath Demo.host.
Proof.
  refine (proj1 (createConfig_entry_from_name_and_title Demo.host
                   Demo.site Demo.sitePublished
                   (createConfig Demo.host Demo.site).2
                   (createConfig Demo.host Demo.sitePublished).2
                   ["claude-redact-env.md"; "notes.txt"] _ _ _ _ _)).
  - vm_compute. reflexivity.
  - vm_compute. reflexivity.
  - intros n Hn.
    apply elem_of_cons in Hn as [->|Hn]; [vm_compute; reflexivity |].
    apply list_elem_of_singleton in Hn as ->. vm_compute. reflexivity.
  - vm_compute. reflexivity.
  - vm_compute. reflexivity.
Defined.

Lemma generateStorkIndex_guards_only_the_launch_witness :
  (∃ e w1, generateStorkIndex Demo.host Demo.bareSite = (Throw e, w1))
  ∧ (∃ w2, generateStorkIndex Demo.host Demo.site = (Ok tt, w2)).
Proof.
  split.
  - refine (proj1 (proj2 (generateStorkIndex_guards_only_the_launch Demo.host
                            Demo.bareSite)) _).
    intros names. vm_compute. discriminate.
  - destruct (generateStorkIndex_guards_only_the_launch Demo.host Demo.site)
      as (_ & _ & _ & _ & _ & Hok).
    destruct (Hok (createConfig Demo.host Demo.site).2) as (w2 & Hrun & _).
    + vm_compute. reflexivity.
    + exists w2. exact Hrun.
Defined.

(** The page generated at 600 s shows [8 minutes] to a request at 700 s and
    to a request at 1000 s, both within its 1800 seconds, although 10 and 15
    minutes have passed since the push by then. *)
Lemma mostRecentPushFormatted_held_not_derived :
  ProjectsPage.generate Demo.statCounter None 600
  = (Some Demo.page, Some ("octo", Demo.snapshot))
  ∧ StatsCache.mostRecentPush Demo.snapshot = 100 * 1000
  ∧ ProjectsPage.fresh Demo.page 700 = true
  ∧ ProjectsPage.fresh Demo.page 1000 = true
  ∧ (ProjectsPage.request Demo.statCounter
       (Demo.page, Some ("octo", Demo.snapshot)) 700).1
    = ProjectsPage.Projects Demo.pushed
  ∧ (ProjectsPage.request Demo.statCounter
       (Demo.page, Some ("octo", Demo.snapshot)) 1000).1
    = ProjectsPage.Projects Demo.pushed
  ∧ mostRecentPushFormatted Demo.pushed = "8 minutes"
  ∧ StatsCache.formatDuration (700 * 1000 - 100 * 1000) = "10 minutes"
  ∧ StatsCache.formatDuration (1000 * 1000 - 100 * 1000) = "15 minutes"
  ∧ ProjectsPage.Text "15 minutes" ∉ ProjectsPage.Projects Demo.pushed.
Proof.
  repeat (split; [by vm_compute |]).
  intros Hin. vm_compute in Hin.
  repeat (apply elem_of_cons in Hin as [Hin|Hin]; [discriminate Hin |]).
  by apply elem_of_nil in Hin.
Qed.

Lemma mostRecentPushFormatted_held_between_regenerations_witness :
  (ProjectsPage.requests Demo.statCounter
     (Demo.page, Some ("octo", Demo.snapshot)) [700; 1000]).1
  = [ProjectsPage.Projects Demo.pushed; ProjectsPage.Projects Demo.pushed].
Proof.
  destruct (mostRecentPushFormatted_held_between_regenerations
              Demo.statCounter None (Some ("octo", Demo.snapshot)) 600
              Demo.pushed [700; 1000])
    as (page & Hgen & _ & _ & _ & Hreq & _).
  - vm_compute. reflexivity.
  - repeat constructor.
  - assert (Hpage : page = Demo.page).
    { assert (H : ProjectsPage.generate Demo.statCounter None 600
                  = (Some Demo.page, Some ("octo", Demo.snapshot)))
        by (vm_compute; reflexivity).
      rewrite H in Hgen. by injection Hgen as <-. }
    rewrite Hpage in Hreq. exact (f_equal fst Hreq).
Defined.

Lemma ttl_is_thirty_minutes_witness :
  StatsCache.expiry
    (StatsCache.aggregate [StatsCache.mkRepo 3 1 100000; StatsCache.mkRepo 4 0 40000]
       600000)
  = 2400000
  ∧ revalidate (getStaticProps (mkStats 7 1 "10 minutes")) = Some 1800.
Proof.
  destruct (ttl_is_thirty_minutes Demo.network None "octo" 600000
              [StatsCache.mkRepo 3 1 100000; StatsCache.mkRepo 4 0 40000]
              (mkStats 7 1 "10 minutes"))
    as ((snap & Hget & _ & Hexpiry & _) & _ & _ & _ & Hrevalidate).
  - vm_compute. reflexivity.
  - vm_compute. reflexivity.
  - split; [| exact Hrevalidate].
    vm_compute. reflexivity.
Defined.

(** ** The search-index step, run by run *)

Section StorkRuns.

Context (host : Host).

Lemma frontmatterOf_readFailure fsm n :
  (frontmatterOf host fsm n = None <-> is_Some (readFailure host fsm n))
  ∧ (is_Some (frontmatterOf host fsm n) <-> readFailure host fsm n = None).
Proof.
  unfold frontmatterOf, readFailure.
  destruct (fsm !! fullPath host n) as [[c|names]|];
    [destruct (matter host c) |..]; split; split;
    intros H; try done; try (by eexists); by destruct H.
Qed.

(** The loop over readable files: one read per name, in order. *)
Lemma forEach_ok names : forall ds config w,
  Forall2 (fun n d => frontmatterOf host (fs w) n = Some d) names ds ->
  forEach host names config w
  = (Ok (config +:+ renderEntries (zip_with entryOf names ds)),
     mkWorld (fs w) (trace w ++ readEvents host names)).
Proof.
  induction names as [|n names IH]; intros ds config w Hds.
  - inversion Hds; subst. destruct w as [fsm tr]. simpl. unfold ret.
    by rewrite app_nil_r, append_empty_r.
  - inversion Hds as [|? d ? ds' Hd Hds']; subst. simpl. unfold bind.
    rewrite configStep_eq. simpl. unfold frontmatterOf in Hd.
    destruct (fs w !! fullPath host n) as [[c|?]|]; try done.
    destruct (matter host c) as [m|e]; [| done]. injection Hd as <-.
    rewrite (IH ds'); [| done]. simpl.
    by rewrite append_assoc, <- app_assoc.
Qed.

(** The loop stops at the first file it cannot read or parse. *)
Lemma forEach_stops good : forall bad rest e config w,
  Forall (fun n => is_Some (frontmatterOf host (fs w) n)) good ->
  readFailure host (fs w) bad = Some e ->
  forEach host (good ++ bad :: rest) config w
  = (Throw e, mkWorld (fs w) (trace w ++ readEvents host (good ++ [bad]))).
Proof.
  induction good as [|n good IH]; intros bad rest e config w Hgood Hbad.
  - simpl. unfold bind. rewrite configStep_eq. simpl.
    unfold readFailure in Hbad.
    destruct (fs w !! fullPath host bad) as [[c|?]|]; simplify_eq; try done.
    destruct (matter host c); by simplify_eq.
  - apply Forall_cons in Hgood as [[d Hd] Hgood]. simpl. unfold bind.
    rewrite configStep_eq. simpl. unfold frontmatterOf in Hd.
    destruct (fs w !! fullPath host n) as [[c|?]|]; try done.
    destruct (matter host c) as [m|?]; [| done].
    rewrite (IH bad rest e); [| done | done]. simpl.
    by rewrite <- app_assoc.
Qed.

(** [createConfig] over a readable directory. *)
Lemma createConfig_ok w names ds :
  fs w !! postsDirectory host = Some (Dir names) ->
  Forall2 (fun n d => frontmatterOf host (fs w) n = Some d) names ds ->
  (forall ns, fs w !! configPath host <> Some (Dir ns)) ->
  let text := configText (zip_with entryOf names ds) in
  createConfig host w
  = (Ok tt,
     mkWorld (<[configPath host := File text]> (fs w))
       (trace w ++ EvReaddir (postsDirectory host)
          :: readEvents host names ++ [EvWriteFile (configPath host) text])).
Proof.
  intros Hdir Hds Hcfg text. unfold createConfig, bind.
  rewrite readdirSync_eq, Hdir. simpl.
  rewrite (forEach_ok names ds); [| done]. simpl.
  rewrite writeFileSync_eq. simpl. subst text. unfold configText.
  rewrite <- append_assoc, <- !app_assoc. simpl.
  destruct (fs w !! configPath host) as [[c|ns]|] eqn:Hc; try done.
  by destruct (Hcfg ns).
Qed.

Lemma Forall2_frontmatter fsm names :
  Forall (fun n => is_Some (frontmatterOf host fsm n)) names ->
  ∃ ds, Forall2 (fun n d => frontmatterOf host fsm n = Some d) names ds.
Proof.
  induction 1 as [|n names [d Hd] _ [ds IH]].
  - exists []. constructor.
  - exists (d :: ds). by constructor.
Qed.

(** X1: [createConfig] returns normally exactly when the posts directory can
    be enumerated, every name it lists is a file that can be read and whose
    frontmatter parses, and the configuration path is not a directory.  The
    frontmatter need not have a title, nor the name an extension. *)
Theorem createConfig_returns_iff w :
  (∃ w1, createConfig host w = (Ok tt, w1))
  <-> (∃ names,
         fs w !! postsDirectory host = Some (Dir names)
         ∧ Forall (fun n => is_Some (frontmatterOf host (fs w) n)) names
         ∧ forall ns, fs w !! configPath host <> Some (Dir ns)).
Proof.
  split.
  - intros [w1 Hc]. pose proof Hc as Hc'.
    apply createConfig_inv in Hc as (_ & _ & names & ds & Hdir & Hds & _).
    exists names. split; [done |]. split.
    + apply Forall_forall. intros n Hn.
      apply list_elem_of_lookup in Hn as [i Hi].
      destruct (Forall2_lookup_l _ _ _ _ _ Hds Hi) as (d & _ & Hd). by exists d.
    + intros ns Hcfg. unfold createConfig, bind in Hc'.
      rewrite readdirSync_eq, Hdir in Hc'. simpl in Hc'.
      rewrite (forEach_ok names ds) in Hc' by done. simpl in Hc'.
      rewrite writeFileSync_eq in Hc'. simpl in Hc'. by rewrite Hcfg in Hc'.
  - intros (names & Hdir & Hall & Hcfg).
    destruct (Forall2_frontmatter _ _ Hall) as [ds Hds].
    eexists. by apply (createConfig_ok w names ds).
Qed.

(** X2: when [generateStorkIndex] throws, it is [createConfig] that threw:
    no file has been written, so a configuration left by an earlier run is
    still there unchanged, and no process has been started. *)
Theorem generateStorkIndex_throw_changes_nothing w e w1 :
  generateStorkIndex host w = (Throw e, w1) ->
  createConfig host w = (Throw e, w1)
  ∧ fs w1 = fs w
  ∧ ∃ evs, trace w1 = trace w ++ evs ∧ Forall (fun ev => isExec ev = false) evs.
Proof.
  rewrite generateStorkIndex_eq.
  destruct (createConfig host w) as [[[]|e'] w'] eqn:Hc.
  - destruct (run host (storkCommand host) (fs w')) as [?|status ? ? ?];
      [done |]. by destruct (status =? 0).
  - intros [= <- <-]. split; [done |].
    apply createConfig_inv in Hc as (_ & Htrace & Hfs & _). done.
Qed.

(** X3: a run over a readable directory, with no directory in the place of
    the configuration file, event by event.  The directory is enumerated
    once, each file is read once, in the order of enumeration, the
    configuration is written once, the indexer is started once, on a file
    system that holds the configuration; then the child's stderr is passed
    on, and its error, if it failed, is printed to the console; an exit
    status of 0 prints nothing there. *)
Theorem generateStorkIndex_run w names ds :
  fs w !! postsDirectory host = Some (Dir names) ->
  Forall2 (fun n d => frontmatterOf host (fs w) n = Some d) names ds ->
  (forall ns, fs w !! configPath host <> Some (Dir ns)) ->
  let text := configText (zip_with entryOf names ds) in
  let fs1 := <[configPath host := File text]> (fs w) in
  let outcome := run host (storkCommand host) fs1 in
  generateStorkIndex host w
  = (Ok tt,
     mkWorld (fsAfter outcome fs1)
       (trace w ++ EvReaddir (postsDirectory host)
          :: readEvents host names
          ++ [EvWriteFile (configPath host) text; EvExec (storkCommand host)]
          ++ consoleAfter outcome)).
Proof.
  intros Hdir Hds Hcfg text fs1 outcome.
  rewrite generateStorkIndex_eq, (createConfig_ok w names ds) by done.
  simpl. fold text fs1 outcome.
  destruct outcome as [code|status out err fs']; simpl.
  - by rewrite <- !app_assoc, <- app_comm_cons, <- !app_assoc.
  - destruct (status =? 0); simpl;
      by rewrite <- !app_assoc, <- app_comm_cons, <- !app_assoc.
Qed.

(** X4: the loop stops at the first file it cannot read or parse.  The step
    throws that file's error; the files listed before it have been read,
    those after it have not; nothing is written and nothing is started. *)
Theorem generateStorkIndex_stops_at_first_bad_file w good bad rest e :
  fs w !! postsDirectory host = Some (Dir (good ++ bad :: rest)) ->
  Forall (fun n => is_Some (frontmatterOf host (fs w) n)) good ->
  readFailure host (fs w) bad = Some e ->
  generateStorkIndex host w
  = (Throw e,
     mkWorld (fs w)
       (trace w ++ EvReaddir (postsDirectory host)
          :: readEvents host (good ++ [bad]))).
Proof.
  intros Hdir Hgood Hbad. rewrite generateStorkIndex_eq.
  unfold createConfig, bind. rewrite readdirSync_eq, Hdir. simpl.
  rewrite (forEach_stops good bad rest e); [| done | done]. simpl.
  by rewrite <- app_assoc.
Qed.

Lemma frontmatterOf_insert_ne fsm p v n :
  fullPath host n <> p ->
  frontmatterOf host (<[p := v]> fsm) n = frontmatterOf host fsm n.
Proof. intros Hne. unfold frontmatterOf. by rewrite lookup_insert_ne. Qed.

(** X5: [createConfig] can be run again on its own result.  When the
    configuration path is neither the posts directory nor one of its files,
    a second run returns as well, writes the same text and leaves the file
    system as the first run left it. *)
Theorem createConfig_twice w w1 names :
  createConfig host w = (Ok tt, w1) ->
  fs w !! postsDirectory host = Some (Dir names) ->
  configPath host <> postsDirectory host ->
  (forall n, n ∈ names -> fullPath host n <> configPath host) ->
  ∃ w2 text,
    createConfig host w1 = (Ok tt, w2)
    ∧ fs w1 !! configPath host = Some (File text)
    ∧ last (trace w2) = Some (EvWriteFile (configPath host) text)
    ∧ fs w2 = fs w1.
Proof.
  intros Hc Hdir Hne Hfiles.
  apply createConfig_inv in Hc as (_ & _ & names' & ds & Hdir' & Hds & Hfs & _).
  rewrite Hdir in Hdir'. injection Hdir' as <-.
  set (text := configText (zip_with entryOf names ds)) in *.
  assert (Hds1 : Forall2 (fun n d => frontmatterOf host (fs w1) n = Some d) names ds).
  { apply Forall2_same_length_lookup. split; [by eapply Forall2_length |].
    intros i n d Hn Hd. rewrite Hfs.
    rewrite frontmatterOf_insert_ne by (apply Hfiles; by eapply list_elem_of_lookup_2).
    destruct (Forall2_lookup_l _ _ _ _ _ Hds Hn) as (d' & Hd' & Hfm).
    rewrite Hd in Hd'. by injection Hd' as <-. }
  eexists _, text. rewrite (createConfig_ok w1 names ds).
  - split; [reflexivity |]. simpl. split; [by rewrite Hfs, lookup_insert_eq |].
    split.
    + rewrite app_comm_cons, !app_assoc. apply last_snoc.
    + rewrite Hfs. by rewrite insert_insert_eq.
  - rewrite Hfs. by rewrite lookup_insert_ne.
  - done.
  - intros ns. rewrite Hfs, lookup_insert_eq. done.
Qed.

(** X6: the url of an entry is the file name without its first [.md],
    wherever in the name that is.  So a name and the same name followed by
    [.md] get the same url. *)
Theorem entry_url_drops_first_md (before after : string) (d : gmap string JS.value) :
  JS.includes ".md" before = false ->
  url (entryOf (before +:+ ".md" +:+ after) d) = before +:+ after
  ∧ url (entryOf before d) = url (entryOf (before +:+ ".md") d).
Proof.
  intros Hfree.
  assert (Hfirst : forall rest,
            JS.replace ".md" "" (before +:+ ".md" +:+ rest) = before +:+ rest).
  { intros rest. induction before as [|c s IH]; [by destruct rest |].
    rewrite includes_cons in Hfree.
    destruct (String.prefix ".md" (String c s)) eqn:Hp; [done |].
    rewrite (append_cons c s (".md" +:+ rest)), (append_cons c s rest),
      replace_cons.
    assert (Hp' : String.prefix ".md" (String c (s +:+ ".md" +:+ rest)) = false).
    { clear IH. revert Hp. rewrite !prefix_cons.
      destruct (ascii_dec "."%char c); [| done].
      destruct s as [|c2 s2]; [done |]. rewrite append_cons, !prefix_cons.
      destruct (ascii_dec "m"%char c2); [| done].
      destruct s2 as [|c3 s3]; [done |]. rewrite append_cons, !prefix_cons.
      destruct (ascii_dec "d"%char c3); [| done].
      by destruct s3. }
    rewrite Hp'. by rewrite IH. }
  unfold entryOf. simpl. split; [apply Hfirst |].
  rewrite (replace_absent _ _ _ Hfree).
  by rewrite replace_md_suffix.
Qed.

(** X7: a file is not asked for a title.  A file whose frontmatter has no
    [title] gets its entry all the same, with the title [undefined]. *)
Theorem createConfig_missing_title w w1 names i n d :
  createConfig host w = (Ok tt, w1) ->
  fs w !! postsDirectory host = Some (Dir names) ->
  names !! i = Some n ->
  frontmatterOf host (fs w) n = Some d ->
  d !! "title" = None ->
  ∃ entries,
    fs w1 !! configPath host = Some (File (configText entries))
    ∧ entries !! i
      = Some {| path := n; url := JS.replace ".md" "" n; title := "undefined" |}.
Proof.
  intros Hc Hdir Hi Hd Htitle.
  apply createConfig_inv in Hc as (_ & _ & names' & ds & Hdir' & Hds & Hfs & _).
  rewrite Hdir in Hdir'. injection Hdir' as <-.
  exists (zip_with entryOf names ds). split; [by rewrite Hfs, lookup_insert_eq |].
  destruct (Forall2_lookup_l _ _ _ _ _ Hds Hi) as (d' & Hd' & Hfm).
  rewrite Hd in Hfm. injection Hfm as <-.
  rewrite lookup_zip_with, Hi, Hd'. simpl. unfold entryOf, JS.get.
  by rewrite Htitle.
Qed.

End StorkRuns.

(** ** The tag pages *)

Section TagPageFacts.

Import TagPage.

Context {Post : Type}.
Context (getAllTags : list string).
Context (getPostsFilteredByTag : string -> list Post).

Lemma tagLinks_lookup (tags : list string) (i : nat) :
  tagLinks tags !! i
  = (fun t => Link ("/tags/" +:+ t) (Some i) (capitalize t)) <$> tags !! i.
Proof.
  unfold tagLinks. rewrite list_lookup_imap.
  change (List.map capitalize tags) with (capitalize <$> tags).
  rewrite list_lookup_fmap. by destruct (tags !! i).
Qed.

Lemma tagLinks_nil (tags : list string) : tagLinks tags = [] <-> tags = [].
Proof.
  split; [| by intros ->].
  intros H. apply (f_equal length) in H. unfold tagLinks in H.
  rewrite length_imap, length_map in H. by destruct tags.
Qed.

Lemma filter_other_nil (tags : list string) (t : string) :
  filter (fun x => x <> t) tags = [] <-> forall x, x ∈ tags -> x = t.
Proof.
  induction tags as [|a tags IH].
  - split; [| done]. intros _ x Hx. by apply elem_of_nil in Hx.
  - rewrite filter_cons. destruct (decide (a <> t)) as [Hne|Heq].
    + split; [done |]. intros H. destruct Hne. apply H, list_elem_of_here.
    + apply dec_stable in Heq. subst a. rewrite IH. split.
      * intros H x Hx. apply elem_of_cons in Hx as [->|Hx]; auto.
      * intros H x Hx. apply H. by apply list_elem_of_further.
Qed.

(** X8: the page of a tag cannot be rendered when the site has no other
    tag: [reduce] is called on an empty array without an initial value and
    throws.  With at least one other tag the page renders. *)
Theorem TagList_throws_without_other_tags (params : Params) :
  (TagList (getStaticProps getAllTags getPostsFilteredByTag params)
   = inl ReduceOfEmptyArray
   <-> forall t, t ∈ getAllTags -> t = tag params)
  ∧ ((∃ t, t ∈ getAllTags ∧ t <> tag params)
     -> ∃ r, TagList (getStaticProps getAllTags getPostsFilteredByTag params) = inr r).
Proof.
  unfold TagList, getStaticProps. simpl.
  destruct (tagLinks (filter (fun t => t <> tag params) getAllTags))
    as [|l ls] eqn:Hlinks; simpl.
  - apply tagLinks_nil in Hlinks. split.
    + split; [| done]. intros _. by apply filter_other_nil.
    + intros (t & Hin & Hne). exfalso.
      assert (Hf : t ∈ filter (fun t => t <> tag params) getAllTags)
        by by apply list_elem_of_filter.
      rewrite Hlinks in Hf. by apply elem_of_nil in Hf.
  - split; [| by eexists]. split; [done |].
    intros Hall. apply filter_other_nil in Hall.
    apply tagLinks_nil in Hall. congruence.
Qed.

Lemma flatten_joined (rest : list child) : forall first,
  Forall (fun c => flatten c = [c]) rest ->
  flatten (fold_left (fun prev curr => Arr [prev; Text ", "; curr]) rest first)
  = flatten first ++ List.concat (List.map (fun c => [Text ", "; c]) rest).
Proof.
  induction rest as [|c rest IH]; intros first Hrest; simpl.
  - by rewrite app_nil_r.
  - apply Forall_cons in Hrest as [Hc Hrest]. rewrite IH by done. simpl.
    rewrite Hc, app_nil_r. by rewrite <- app_assoc.
Qed.

Lemma capitalize_letter (c : ascii) (rest : string) :
  (97 <= nat_of_ascii c <= 122)%nat ->
  capitalize (String c rest) = String (ascii_of_nat (nat_of_ascii c - 32)) rest.
Proof.
  intros [Hlo Hhi]. unfold capitalize, toUpperCase.
  by rewrite (proj2 (Nat.leb_le _ _) Hlo), (proj2 (Nat.leb_le _ _) Hhi).
Qed.

Lemma capitalize_other (c : ascii) (rest : string) :
  (nat_of_ascii c < 97 ∨ 122 < nat_of_ascii c)%nat ->
  capitalize (String c rest) = String c rest.
Proof.
  intros Hc. unfold capitalize, toUpperCase.
  destruct (Nat.leb_spec 97 (nat_of_ascii c)), (Nat.leb_spec (nat_of_ascii c) 122);
    simpl; try done; lia.
Qed.

(** X9: on the page of tags that start with a character of ASCII, the
    "Other tags" line shows one link per other tag, in order, with [", "]
    between two links and nothing after the last; the [i]-th link leads to
    [/tags/] followed by the tag as it is spelled and shows the tag with
    its first letter in upper case: a first character from [a] to [z] is
    replaced by its capital, 32 codes below, and every other tag is shown
    as it is spelled. *)
Theorem TagList_other_tags_line (props : Props (Post := Post)) (r : Rendered) :
  Forall (fun t => startsAscii t = true) (otherTags props) ->
  TagList props = inr r ->
  List.concat (List.map flatten (otherTagsLine r))
  = [Text "Other tags:"; Text " "]
    ++ separated (Text ", ") (tagLinks (otherTags props))
    ++ [Text " "; Text "or "; Link "/articles" None "all articles"; Text "."]
  ∧ length (tagLinks (otherTags props)) = length (otherTags props)
  ∧ forall i t, otherTags props !! i = Some t ->
      ∃ shown,
        tagLinks (otherTags props) !! i
        = Some (Link ("/tags/" +:+ t) (Some i) shown)
        ∧ match t with
          | EmptyString => shown = EmptyString
          | String c rest =>
              if ((97 <=? nat_of_ascii c) && (nat_of_ascii c <=? 122))%nat
              then shown = String (ascii_of_nat (nat_of_ascii c - 32)) rest
              else shown = t
          end.
Proof.
  intros _ Hr. split; [| split].
  - revert Hr. unfold TagList.
    destruct (tagLinks (otherTags props)) as [|l ls] eqn:Hlinks; [done |].
    simpl. intros [= <-]. simpl.
    assert (Hflat : Forall (fun c => flatten c = [c]) (l :: ls)).
    { rewrite <- Hlinks. apply Forall_lookup. intros i c Hc.
      rewrite tagLinks_lookup in Hc.
      destruct (otherTags props !! i); simpl in Hc; by simplify_eq. }
    apply Forall_cons in Hflat as [Hl Hls].
    rewrite flatten_joined by done. by rewrite Hl.
  - unfold tagLinks. by rewrite length_imap, length_map.
  - intros i t Hi. exists (capitalize t).
    split; [by rewrite tagLinks_lookup, Hi |].
    destruct t as [|c rest]; [done |].
    destruct (Nat.leb_spec 97 (nat_of_ascii c)),
             (Nat.leb_spec (nat_of_ascii c) 122); simpl.
    + by apply capitalize_letter.
    + apply capitalize_other. lia.
    + apply capitalize_other. lia.
    + apply capitalize_other. lia.
Qed.


End TagPageFacts.

(** ** The home page *)

Section HomePageFacts.

Import HomePage.

Lemma splitOn_length (sep : ascii) (s : string) :
  length (Loader.splitOn sep s) = S (occurrences sep s).
Proof.
  induction s as [|c s IH]; [reflexivity |]. simpl.
  destruct (Loader.splitOn sep s) as [|l ls]; [discriminate |].
  destruct (Ascii.eqb c sep); simpl in *; lia.
Qed.

(** X11: the word count of the home page is the number of posts plus the
    number of space characters in their contents: every post counts for at
    least one word, also an empty one, two spaces in a row count for two,
    and no other white space separates words. *)
Theorem words_counts_spaces {Post : Type} (id : Post -> string)
    (getSortedPostsData : list Post) (getPostData : string -> GrayMatterFile)
    (SITE_DESC : string) :
  words (getStaticProps id getSortedPostsData getPostData SITE_DESC)
  = Z.of_nat
      (length getSortedPostsData
       + sum_list (List.map (fun p => occurrences " "%char (content (getPostData (id p))))
                     getSortedPostsData)).
Proof.
  unfold getStaticProps. simpl.
  assert (H : forall posts (start : Z),
            fold_left
              (fun count current =>
                 count + Z.of_nat (length (split " "%char (content (getPostData (id current))))))
              posts start
            = start
              + Z.of_nat
                  (length posts
                   + sum_list (List.map
                                 (fun p => occurrences " "%char (content (getPostData (id p))))
                                 posts))).
  { induction posts as [|p posts IH]; intros start; simpl; [lia |].
    rewrite IH. unfold split. rewrite splitOn_length. lia. }
  rewrite H. lia.
Qed.

(** *** Decimal numerals *)

Lemma pretty_N_go_app (x : N) : forall s,
  pretty_N_go x s = pretty_N_go x EmptyString +:+ s.
Proof.
  induction (N.lt_wf_0 x) as [x _ IH]; intros s.
  destruct (decide (x = 0)%N) as [->|Hx]; [by rewrite !pretty_N_go_0 |].
  assert (Hlt : (x `div` 10 < x)%N) by (apply N.div_lt; lia).
  rewrite !(pretty_N_go_step x) by lia.
  rewrite (IH _ Hlt (String (pretty_N_char (x `mod` 10)) s)).
  rewrite (IH _ Hlt (String (pretty_N_char (x `mod` 10)) EmptyString)).
  by rewrite append_assoc.
Qed.

Lemma pretty_N_small (x : N) :
  (x < 10)%N -> pretty x = String (pretty_N_char x) EmptyString.
Proof.
  intros Hx. unfold pretty, pretty_N.
  destruct (decide (x = 0)%N) as [->|Hne]; [reflexivity |].
  rewrite pretty_N_go_step by lia.
  rewrite N.div_small, N.mod_small by lia. by rewrite pretty_N_go_0.
Qed.

Lemma pretty_N_snoc (x : N) :
  (10 <= x)%N ->
  pretty x = pretty (x `div` 10)%N
             +:+ String (pretty_N_char (x `mod` 10)%N) EmptyString.
Proof.
  intros Hx. unfold pretty, pretty_N.
  assert (0 < x `div` 10)%N by (apply N.div_str_pos; lia).
  rewrite !decide_False by lia.
  rewrite (pretty_N_go_step x) by lia. apply pretty_N_go_app.
Qed.

Lemma isDigit_char (x : N) : isDigit (pretty_N_char x) = true.
Proof.
  unfold pretty_N_char. by repeat case_match.
Qed.

Lemma allDigits_app (a b : string) :
  allDigits (a +:+ b) = allDigits a && allDigits b.
Proof.
  induction a as [|c a IH]; [reflexivity |].
  rewrite append_cons. simpl. rewrite IH. by rewrite andb_assoc.
Qed.

Lemma length_append (a b : string) :
  String.length (a +:+ b) = (String.length a + String.length b)%nat.
Proof.
  induction a as [|c a IH]; [reflexivity |].
  rewrite append_cons. simpl. by rewrite IH.
Qed.

(** The numeral of a natural number: digits only, at least one. *)
Lemma pretty_N_digits (x : N) :
  allDigits (pretty x) = true ∧ (0 < String.length (pretty x))%nat.
Proof.
  induction (N.lt_wf_0 x) as [x _ IH].
  destruct (decide (x < 10)%N) as [Hx|Hx].
  - rewrite pretty_N_small by done. simpl. rewrite isDigit_char. split; [done | lia].
  - rewrite pretty_N_snoc by lia.
    destruct (IH (x `div` 10)%N) as [Hd Hl]; [apply N.div_lt; lia |].
    rewrite allDigits_app, length_append, Hd. simpl.
    rewrite isDigit_char. split; [done | lia].
Qed.

Lemma pretty_Z_nonneg (x : Z) : 0 <= x -> pretty x = pretty (Z.to_N x).
Proof. destruct x; [reflexivity | reflexivity | lia]. Qed.

(** *** The pattern on digits *)

Lemma isDigit_isWord (c : ascii) : isDigit c = true -> isWord c = true.
Proof. unfold isWord. by intros ->. Qed.

Lemma insertCommas_cons (prev : option ascii) (c : ascii) (rest : string) :
  insertCommas prev (String c rest)
  = (if notBoundary prev (String c rest) && lookahead (String c rest)
     then "," else EmptyString)
    +:+ String c (insertCommas (Some c) rest).
Proof. reflexivity. Qed.

Lemma insertCommas_nil (prev : option ascii) :
  insertCommas prev EmptyString = EmptyString.
Proof. simpl. by destruct (notBoundary prev EmptyString). Qed.

Lemma lookahead_cons3 (a b c : ascii) (rest : string) :
  lookahead (String a (String b (String c rest)))
  = isDigit a && isDigit b && isDigit c
    && (negb (startsWithDigit rest) || lookahead rest).
Proof. reflexivity. Qed.

(** On a string of digits the lookahead holds exactly when the digits come
    in a positive number of groups of three. *)
Lemma lookahead_digits (s : string) :
  (allDigits s = true ->
   (lookahead s = true <-> ∃ k, (0 < k ∧ String.length s = 3 * k)%nat))
  ∧ (forall a, allDigits (String a s) = true ->
       (lookahead (String a s) = true
        <-> ∃ k, (0 < k ∧ String.length (String a s) = 3 * k)%nat))
  ∧ (forall a b, allDigits (String a (String b s)) = true ->
       (lookahead (String a (String b s)) = true
        <-> ∃ k, (0 < k ∧ String.length (String a (String b s)) = 3 * k)%nat)).
Proof.
  induction s as [|c s (IH0 & IH1 & IH2)].
  - repeat split; simpl; try done; intros (k & ? & ?); lia.
  - split; [apply (IH1 c) |]. split; [intros a; apply (IH2 a c) |].
    intros a b Hd. rewrite lookahead_cons3.
    simpl in Hd. apply andb_prop in Hd as [Ha Hd].
    apply andb_prop in Hd as [Hb Hd]. apply andb_prop in Hd as [Hc Hd].
    rewrite Ha, Hb, Hc. simpl.
    destruct s as [|x s'].
    + simpl. split; [| done]. intros _. exists 1%nat. lia.
    + simpl in Hd. apply andb_prop in Hd as [Hx Hd']. simpl startsWithDigit.
      rewrite Hx. simpl negb. rewrite orb_false_l.
      rewrite IH0 by (simpl; by rewrite Hx, Hd').
      split; intros (k & Hk & Hlen).
      * exists (S k). simpl in *. lia.
      * exists (k - 1)%nat. simpl in *. lia.
Qed.

Lemma lookahead_digits_app3 (a b : string) :
  allDigits a = true -> allDigits b = true ->
  (0 < String.length a)%nat -> String.length b = 3%nat ->
  lookahead (a +:+ b) = lookahead a.
Proof.
  intros Ha Hb Hla Hlb.
  pose proof (proj1 (lookahead_digits a) Ha) as H1.
  assert (Hab : allDigits (a +:+ b) = true) by by rewrite allDigits_app, Ha, Hb.
  pose proof (proj1 (lookahead_digits (a +:+ b)) Hab) as H2.
  rewrite length_append, Hlb in H2.
  destruct (lookahead a) eqn:E1, (lookahead (a +:+ b)) eqn:E2; try done.
  - destruct (proj1 H1 eq_refl) as (k & Hk & Hlen).
    assert (Hex : ∃ k', (0 < k' ∧ String.length a + 3 = 3 * k')%nat)
      by (exists (S k); lia).
    apply H2 in Hex. done.
  - destruct (proj1 H2 eq_refl) as (k & Hk & Hlen).
    assert (Hex : ∃ k', (0 < k' ∧ String.length a = 3 * k')%nat)
      by (exists (k - 1)%nat; lia).
    apply H1 in Hex. done.
Qed.

(** Three more digits at the end put one more comma in, before them. *)
Lemma insertCommas_app3 (a b : string) : forall prev,
  allDigits a = true -> allDigits b = true ->
  (0 < String.length a)%nat -> String.length b = 3%nat ->
  insertCommas prev (a +:+ b) = insertCommas prev a +:+ "," +:+ b.
Proof.
  induction a as [|c a IH]; intros prev Ha Hb Hla Hlb; [simpl in Hla; lia |].
  rewrite append_cons, !insertCommas_cons, <- append_cons.
  rewrite lookahead_digits_app3 by done.
  assert (Hnb : notBoundary prev (String c a +:+ b) = notBoundary prev (String c a))
    by reflexivity.
  rewrite Hnb, append_assoc, append_cons. f_equal. f_equal.
  simpl in Ha. apply andb_prop in Ha as [Hc Ha].
  destruct a as [|c' a'].
  - destruct b as [|x [|y [|z [|? ?]]]]; try discriminate.
    simpl in Hb. apply andb_prop in Hb as [Hx Hb].
    apply andb_prop in Hb as [Hy Hb]. apply andb_prop in Hb as [Hz _].
    change (EmptyString +:+ String x (String y (String z EmptyString)))
      with (String x (String y (String z EmptyString))).
    rewrite !insertCommas_cons, !insertCommas_nil, lookahead_cons3, Hx, Hy, Hz.
    unfold notBoundary.
    rewrite (isDigit_isWord c), (isDigit_isWord x), (isDigit_isWord y),
      (isDigit_isWord z) by done.
    reflexivity.
  - apply IH; [done | done | simpl; lia | done].
Qed.

Lemma insertCommas_short (s : string) :
  allDigits s = true -> (String.length s <= 3)%nat ->
  insertCommas None s = s.
Proof.
  intros Hd Hl.
  destruct s as [|a [|b [|c [|? ?]]]]; simpl in Hl; try lia; simpl in Hd.
  - reflexivity.
  - apply andb_prop in Hd as [Ha _].
    rewrite insertCommas_cons, insertCommas_nil. unfold notBoundary.
    by rewrite (isDigit_isWord a).
  - apply andb_prop in Hd as [Ha Hd]. apply andb_prop in Hd as [Hb _].
    rewrite !insertCommas_cons, insertCommas_nil. unfold notBoundary.
    rewrite (isDigit_isWord a), (isDigit_isWord b) by done. reflexivity.
  - apply andb_prop in Hd as [Ha Hd]. apply andb_prop in Hd as [Hb Hd].
    apply andb_prop in Hd as [Hc _].
    rewrite !insertCommas_cons, insertCommas_nil. unfold notBoundary.
    rewrite (isDigit_isWord a), (isDigit_isWord b), (isDigit_isWord c) by done.
    reflexivity.
Qed.

Lemma pretty_N_thousands (x : N) :
  (1000 <= x)%N ->
  pretty x = pretty (x `div` 1000)%N +:+ threeDigits (Z.of_N x mod 1000).
Proof.
  intros Hx.
  rewrite (pretty_N_snoc x) by lia.
  rewrite (pretty_N_snoc (x `div` 10)%N)
    by (apply N.div_le_lower_bound; lia).
  rewrite (pretty_N_snoc ((x `div` 10) `div` 10)%N)
    by (rewrite N.Div0.div_div; apply N.div_le_lower_bound; lia).
  rewrite !N.Div0.div_div. change (10 * 10)%N with 100%N.
  change (100 * 10)%N with 1000%N. rewrite !append_assoc. f_equal.
  unfold threeDigits. simpl.
  assert (E2 : Z.to_N (Z.of_N x mod 1000 / 100) = ((x `div` 100) `mod` 10)%N).
  { apply N2Z.inj. rewrite Z2N.id, N2Z.inj_mod, N2Z.inj_div
      by (apply Z.div_pos; [apply Z.mod_pos_bound |]; lia).
    simpl. Z.div_mod_to_equations. lia. }
  assert (E1 : Z.to_N (Z.of_N x mod 1000 / 10 mod 10) = ((x `div` 10) `mod` 10)%N).
  { apply N2Z.inj. rewrite Z2N.id, N2Z.inj_mod, N2Z.inj_div
      by (apply Z.mod_pos_bound; lia).
    simpl. Z.div_mod_to_equations. lia. }
  assert (E0 : Z.to_N (Z.of_N x mod 1000 mod 10) = (x `mod` 10)%N).
  { apply N2Z.inj. rewrite Z2N.id, N2Z.inj_mod
      by (apply Z.mod_pos_bound; lia).
    simpl. Z.div_mod_to_equations. lia. }
  by rewrite E2, E1, E0.
Qed.

(** X12: [numberWithCommas] groups the digits of a natural number that is
    a safe integer in threes from the right: below 1000 the numeral is left
    as it is, and from 1000 on the numeral is that of the thousands, itself
    a safe integer, a comma, and the three digits of the rest. *)
Theorem numberWithCommas_groups_thousands (x : Z) :
  isSafeInteger x = true ->
  0 <= x ->
  (x < 1000 -> numberWithCommas x = JS.toString (JS.Num x))
  ∧ (1000 <= x ->
     isSafeInteger (x / 1000) = true
     ∧ numberWithCommas x
       = numberWithCommas (x / 1000) +:+ "," +:+ threeDigits (x mod 1000)).
Proof.
  intros Hsafe Hx.
  assert (Hsafe' : 1000 <= x -> isSafeInteger (x / 1000) = true).
  { intros Hge. unfold isSafeInteger in *. apply Z.leb_le in Hsafe.
    apply Z.leb_le. rewrite Z.abs_eq in * by (try apply Z.div_pos; lia).
    assert (x / 1000 <= x); [| lia].
    apply Z.div_le_upper_bound; lia. }
  unfold numberWithCommas. simpl JS.toString.
  rewrite !pretty_Z_nonneg by (try apply Z.div_pos; lia). split.
  - intros Hlt. apply insertCommas_short; [apply pretty_N_digits |].
    assert (Hsmall : (Z.to_N x < 1000)%N) by lia. revert Hsmall.
    generalize (Z.to_N x). intros n Hn.
    destruct (decide (n < 10)%N); [by rewrite pretty_N_small; simpl; lia |].
    rewrite pretty_N_snoc, length_append by lia. simpl.
    destruct (decide (n `div` 10 < 10)%N); [rewrite pretty_N_small by done; simpl; lia |].
    rewrite pretty_N_snoc, length_append by lia. simpl.
    rewrite pretty_N_small; [simpl; lia |].
    rewrite N.Div0.div_div. apply N.Div0.div_lt_upper_bound. lia.
  - intros Hge. split; [by apply Hsafe' |].
    rewrite pretty_N_thousands by lia.
    rewrite Z2N.id by lia.
    replace (Z.to_N x `div` 1000)%N with (Z.to_N (x / 1000))
      by (rewrite Z2N.inj_div by lia; reflexivity).
    apply insertCommas_app3.
    + apply pretty_N_digits.
    + unfold threeDigits. simpl. by rewrite !isDigit_char.
    + apply pretty_N_digits.
    + reflexivity.
Qed.

Lemma without_app (c : ascii) (a b : string) :
  without c (a +:+ b) = without c a +:+ without c b.
Proof.
  induction a as [|x a IH]; [reflexivity |].
  rewrite append_cons. simpl. destruct (Ascii.eqb x c); [done |].
  by rewrite append_cons, IH.
Qed.

Lemma without_insertCommas (s : string) : forall prev,
  without ","%char (insertCommas prev s) = without ","%char s.
Proof.
  induction s as [|c s IH]; intros prev.
  - by rewrite insertCommas_nil.
  - rewrite insertCommas_cons, without_app.
    assert (Hcomma : without ","%char
                       (if notBoundary prev (String c s) && lookahead (String c s)
                        then "," else EmptyString) = EmptyString)
      by by destruct (_ && _).
    rewrite Hcomma. simpl. rewrite IH. by destruct (Ascii.eqb c ","%char).
Qed.

Lemma without_digits (s : string) :
  allDigits s = true -> without ","%char s = s.
Proof.
  induction s as [|c s IH]; [done |]. simpl.
  intros [Hc Hs]%andb_prop. rewrite IH by done.
  destruct (Ascii.eqb_spec c ","%char) as [->|]; [discriminate | done].
Qed.

Lemma lookahead_not_digit (c : ascii) (s : string) :
  isDigit c = false -> lookahead (String c s) = false.
Proof.
  intros Hc. destruct s as [|a [|b rest]]; [reflexivity | reflexivity |].
  rewrite lookahead_cons3. by rewrite Hc.
Qed.

Lemma insertCommas_after_sign (s : string) :
  insertCommas (Some "-"%char) s = insertCommas None s.
Proof. by destruct s. Qed.

(** X13: for a safe integer, [numberWithCommas] adds commas and nothing
    else: without its commas the result is the numeral of the integer; and
    the sign stays in front, no comma after it. *)
Theorem numberWithCommas_only_adds_commas (x : Z) :
  isSafeInteger x = true ->
  without ","%char (numberWithCommas x) = JS.toString (JS.Num x)
  ∧ (0 < x -> isSafeInteger (- x) = true
              ∧ numberWithCommas (- x) = "-" +:+ numberWithCommas x).
Proof.
  intros Hsafe. unfold numberWithCommas. simpl JS.toString. split.
  - rewrite without_insertCommas.
    destruct x as [|p|p]; [reflexivity | |].
    + apply without_digits. apply (pretty_N_digits (N.pos p)).
    + change (pretty (Z.neg p)) with ("-" +:+ pretty (N.pos p)).
      rewrite without_app. simpl. f_equal.
      apply without_digits. apply (pretty_N_digits (N.pos p)).
  - intros Hpos. split; [unfold isSafeInteger in *; by rewrite Z.abs_opp |].
    destruct x as [|p|p]; try lia.
    change (pretty (- Z.pos p)) with (String "-"%char (pretty (N.pos p))).
    rewrite insertCommas_cons, insertCommas_after_sign.
    rewrite lookahead_not_digit, andb_false_r by reflexivity.
    change (pretty (Z.pos p)) with (pretty (N.pos p)).
    reflexivity.
Qed.

End HomePageFacts.

(** ** More of the concrete site *)

Lemma createConfig_returns_iff_witness :
  ∃ w1, createConfig Demo.host Demo.site = (Ok tt, w1).
Proof.
  apply (proj2 (createConfig_returns_iff Demo.host Demo.site)).
  exists ["claude-redact-env.md"; "notes.txt"].
  split; [vm_compute; reflexivity |]. split.
  - repeat constructor; vm_compute; eexists; reflexivity.
  - intros ns. vm_compute. discriminate.
Defined.

Lemma generateStorkIndex_throw_changes_nothing_witness :
  fs (generateStorkIndex Demo.host Demo.brokenSite).2 = fs Demo.brokenSite.
Proof.
  refine (proj1 (proj2 (generateStorkIndex_throw_changes_nothing Demo.host
                          Demo.brokenSite (ENOENT "/site/posts/missing.md")
                          (generateStorkIndex Demo.host Demo.brokenSite).2 _))).
  vm_compute. reflexivity.
Defined.

Lemma generateStorkIndex_run_witness :
  (generateStorkIndex Demo.host Demo.site).1 = Ok tt
  ∧ trace (generateStorkIndex Demo.host Demo.site).2
    = [EvReaddir "/site/posts";
       EvReadFile "/site/posts/claude-redact-env.md";
       EvReadFile "/site/posts/notes.txt";
       EvWriteFile "/site/stork-posts.toml"
         (configText
            [mkEntry "claude-redact-env.md" "claude-redact-env"
               "Hiding Secrets from Your AI Pair Programmer";
             mkEntry "notes.txt" "notes.txt" "undefined"]);
       EvExec "/site/stork.sh";
       EvStderr "stork: cannot index";
       EvConsoleError (ExecError 1 "" "stork: cannot index")].
Proof.
  rewrite (generateStorkIndex_run Demo.host Demo.site
             ["claude-redact-env.md"; "notes.txt"]
             [{["title" := JS.Str "Hiding Secrets from Your AI Pair Programmer";
                "date" := JS.Str "2024-12-26";
                "tags" := JS.Arr [JS.Str "javascript"; JS.Str "claude"; JS.Str "security"];
                "draft" := JS.Bool true]};
              ∅]).
  - split; [reflexivity | vm_compute; reflexivity].
  - vm_compute. reflexivity.
  - repeat constructor; vm_compute; reflexivity.
  - intros ns. vm_compute. discriminate.
Defined.

Lemma generateStorkIndex_stops_at_first_bad_file_witness :
  generateStorkIndex Demo.host Demo.brokenSite
  = (Throw (ENOENT "/site/posts/missing.md"),
     {| fs := fs Demo.brokenSite;
        trace := [EvReaddir "/site/posts";
                  EvReadFile "/site/posts/claude-redact-env.md";
                  EvReadFile "/site/posts/missing.md"] |}).
Proof.
  rewrite (generateStorkIndex_stops_at_first_bad_file Demo.host Demo.brokenSite
             ["claude-redact-env.md"] "missing.md" ["notes.txt"]
             (ENOENT "/site/posts/missing.md")).
  - reflexivity.
  - vm_compute. reflexivity.
  - repeat constructor. vm_compute. eexists. reflexivity.
  - vm_compute. reflexivity.
Defined.

Lemma createConfig_twice_witness :
  ∃ w2 text,
    createConfig Demo.host (createConfig Demo.host Demo.site).2 = (Ok tt, w2)
    ∧ fs (createConfig Demo.host Demo.site).2 !! configPath Demo.host
      = Some (File text)
    ∧ last (trace w2) = Some (EvWriteFile (configPath Demo.host) text)
    ∧ fs w2 = fs (createConfig Demo.host Demo.site).2.
Proof.
  apply (createConfig_twice Demo.host Demo.site
           (createConfig Demo.host Demo.site).2
           ["claude-redact-env.md"; "notes.txt"]).
  - vm_compute. reflexivity.
  - vm_compute. reflexivity.
  - vm_compute. discriminate.
  - intros n Hn. apply elem_of_cons in Hn as [->|Hn]; [vm_compute; discriminate |].
    apply list_elem_of_singleton in Hn as ->. vm_compute. discriminate.
Defined.

Lemma entry_url_drops_first_md_witness :
  url (entryOf "a.mdx.md" ∅) = "ax.md"
  ∧ url (entryOf "a" ∅) = url (entryOf "a.md" ∅).
Proof.
  apply (entry_url_drops_first_md "a" "x.md" ∅). vm_compute. reflexivity.
Defined.

Lemma createConfig_missing_title_witness :
  ∃ entries,
    fs (createConfig Demo.host Demo.site).2 !! configPath Demo.host
    = Some (File (configText entries))
    ∧ entries !! 1%nat
      = Some {| path := "notes.txt"; url := "notes.txt"; title := "undefined" |}.
Proof.
  apply (createConfig_missing_title Demo.host Demo.site
           (createConfig Demo.host Demo.site).2
           ["claude-redact-env.md"; "notes.txt"] 1 "notes.txt" ∅).
  - vm_compute. reflexivity.
  - vm_compute. reflexivity.
  - reflexivity.
  - vm_compute. reflexivity.
  - reflexivity.
Defined.

Lemma TagList_throws_without_other_tags_witness :
  TagPage.TagList
    (TagPage.getStaticProps ["rust"] Demo.noPosts (TagPage.mkParams "rust"))
  = inl TagPage.ReduceOfEmptyArray.
Proof.
  apply (proj1 (TagList_throws_without_other_tags ["rust"] Demo.noPosts
                  (TagPage.mkParams "rust"))).
  intros t Ht. by apply list_elem_of_singleton in Ht.
Defined.

Lemma TagList_other_tags_line_witness :
  ∃ r,
    TagPage.TagList
      (TagPage.getStaticProps Demo.tags Demo.noPosts (TagPage.mkParams "rust"))
    = inr r
    ∧ List.concat (List.map TagPage.flatten (TagPage.otherTagsLine r))
      = [TagPage.Text "Other tags:"; TagPage.Text " ";
         TagPage.Link "/tags/AI" (Some 0%nat) "AI"; TagPage.Text ", ";
         TagPage.Link "/tags/javascript" (Some 1%nat) "Javascript";
         TagPage.Text " "; TagPage.Text "or ";
         TagPage.Link "/articles" None "all articles"; TagPage.Text "."].
Proof.
  destruct (TagPage.TagList
              (TagPage.getStaticProps Demo.tags Demo.noPosts (TagPage.mkParams "rust")))
    as [e|r] eqn:Hr.
  - vm_compute in Hr. discriminate.
  - exists r. split; [reflexivity |].
    assert (Hascii : Forall (fun t => TagPage.startsAscii t = true)
                       (TagPage.otherTags
                          (TagPage.getStaticProps Demo.tags Demo.noPosts
                             (TagPage.mkParams "rust")))).
    { vm_compute. repeat constructor. }
    rewrite (proj1 (TagList_other_tags_line _ r Hascii Hr)).
    vm_compute. reflexivity.
Defined.


Lemma words_counts_spaces_witness :
  HomePage.words
    (HomePage.getStaticProps (fun p => p) Demo.catalog Demo.postData "Blog")
  = 6.
Proof.
  rewrite (words_counts_spaces (fun p => p) Demo.catalog Demo.postData "Blog").
  vm_compute. reflexivity.
Defined.

Lemma numberWithCommas_groups_thousands_witness :
  HomePage.numberWithCommas 1234567 = "1,234,567"
  ∧ HomePage.numberWithCommas (2 ^ 53 - 1) = "9,007,199,254,740,991".
Proof.
  split.
  - rewrite (proj2 (proj2 (numberWithCommas_groups_thousands 1234567
                             eq_refl ltac:(lia)) ltac:(lia))).
    vm_compute. reflexivity.
  - rewrite (proj2 (proj2 (numberWithCommas_groups_thousands (2 ^ 53 - 1)
                             eq_refl ltac:(lia)) ltac:(lia))).
    vm_compute. reflexivity.
Defined.

Lemma numberWithCommas_only_adds_commas_witness :
  HomePage.without ","%char (HomePage.numberWithCommas (- 1234567)) = "-1234567"
  ∧ HomePage.numberWithCommas (- 1234) = "-" +:+ HomePage.numberWithCommas 1234.
Proof.
  split.
  - rewrite (proj1 (numberWithCommas_only_adds_commas (- 1234567) eq_refl)).
    reflexivity.
  - apply (proj2 (numberWithCommas_only_adds_commas 1234 eq_refl)). lia.
Defined.

(** ** Seam carving *)

Section SeamFacts.

Import SeamCarving.

Lemma min_from_spec (rest : list (nat * Z)) : forall best,
  min_from best rest ∈ best :: rest
  ∧ forall other, other ∈ best :: rest -> (min_from best rest).2 <= other.2.
Proof.
  induction rest as [|next rest IH]; intros best; simpl.
  - split; [apply list_elem_of_here |].
    intros other Hin. apply list_elem_of_singleton in Hin as ->. lia.
  - destruct (IH (if next.2 <? best.2 then next else best)) as [Hin Hmin].
    split.
    + apply elem_of_cons in Hin as [Heq|Hin].
      * rewrite Heq. destruct (next.2 <? best.2);
          [apply list_elem_of_further |]; apply list_elem_of_here.
      * by do 2 apply list_elem_of_further.
    + intros other Hother.
      assert (Hcur : (min_from (if next.2 <? best.2 then next else best) rest).2
                     <= (if next.2 <? best.2 then next else best).2)
        by apply Hmin, list_elem_of_here.
      apply elem_of_cons in Hother as [->|Hother];
        [| apply elem_of_cons in Hother as [->|Hother]].
      * destruct (Z.ltb_spec next.2 best.2); lia.
      * destruct (Z.ltb_spec next.2 best.2); lia.
      * apply Hmin. by apply list_elem_of_further.
Qed.

Lemma min_by_key_enumerate (l : list Z) (i : nat) (v : Z) :
  min_by_key (enumerate l) = Some (i, v) ->
  l !! i = Some v ∧ forall j w, l !! j = Some w -> v <= w.
Proof.
  unfold min_by_key. destruct (enumerate l) as [|first rest] eqn:Henum; [done |].
  intros [= Hmin]. destruct (min_from_spec rest first) as [Hin Hle].
  rewrite Hmin, <- Henum in Hin. rewrite Hmin in Hle. split.
  - apply elem_of_lookup_imap in Hin as (j & w & [= -> ->] & Hj). done.
  - intros j w Hj. apply (Hle (j, w)). rewrite <- Henum.
    by apply (elem_of_lookup_imap_2 (fun i a => (i, a))).
Qed.

Lemma min_by_key_is_Some (l : list Z) :
  l <> [] -> is_Some (min_by_key (enumerate l)).
Proof. destruct l; [done |]. intros _. by eexists. Qed.

Lemma neighbors_lt (width x n : nat) :
  (x < width)%nat -> n ∈ neighbors width x -> (n < width)%nat.
Proof.
  intros Hx Hn. unfold neighbors in Hn.
  apply elem_of_cons in Hn as [->|Hn];
    [| apply elem_of_cons in Hn as [->|Hn];
       [| apply list_elem_of_singleton in Hn as ->]].
  - destruct (Nat.eqb_spec x 0); lia.
  - done.
  - destruct (Nat.eqb_spec x (width - 1)); lia.
Qed.

Context (add : Z -> Z -> option Z).

(** What a turn of the inner loop has done when it has not panicked. *)
Lemma cell_Some above row width x total chosen :
  cell add above row width x = Some (total, chosen) ->
  chosen ∈ neighbors width x
  ∧ ∃ energy least,
      row !! x = Some energy
      ∧ above !! chosen = Some least
      ∧ add energy least = Some total
      ∧ forall n v, n ∈ neighbors width x -> above !! n = Some v -> least <= v.
Proof.
  unfold cell.
  destruct (mapM _ (neighbors width x)) as [vals|] eqn:Hvals; [| done]. simpl.
  destruct (min_by_key (enumerate vals)) as [[idx least]|] eqn:Hmin; [| done].
  simpl.
  destruct (row !! x) as [energy|]; [| done]. simpl.
  destruct (add energy least) as [t|] eqn:Hadd; [| done]. simpl.
  destruct (neighbors width x !! idx) as [c|] eqn:Hidx; [| done]. simpl.
  intros [= <- <-].
  apply mapM_Some_1 in Hvals. apply min_by_key_enumerate in Hmin as [Hval Hleast].
  split; [by eapply list_elem_of_lookup_2 |].
  exists energy, least. split; [done |]. split.
  - by apply (Forall2_lookup_lr _ _ _ _ _ _ Hvals Hidx Hval).
  - split; [done |]. intros n v Hn Hv.
    apply list_elem_of_lookup in Hn as [j Hj].
    destruct (Forall2_lookup_l _ _ _ _ _ Hvals Hj) as (v' & Hv' & Habove).
    rewrite Hv in Habove. injection Habove as <-. by eapply Hleast.
Qed.

Lemma next_row_Some above row width current chosen :
  next_row add above row width = Some (current, chosen) ->
  length current = width ∧ length chosen = width
  ∧ forall x, (x < width)%nat ->
      ∃ total c, current !! x = Some total ∧ chosen !! x = Some c
                 ∧ cell add above row width x = Some (total, c).
Proof.
  unfold next_row.
  destruct (mapM _ (seq 0 width)) as [cells|] eqn:Hcells; [| done]. simpl.
  intros [= <- <-]. apply mapM_Some_1 in Hcells.
  pose proof (Forall2_length _ _ _ Hcells) as Hlen. rewrite length_seq in Hlen.
  rewrite !length_fmap. split; [done |]. split; [done |].
  intros x Hx.
  destruct (Forall2_lookup_l _ _ _ _ _ Hcells (lookup_seq_lt 0 width x Hx))
    as ([total c] & Hcell & Hc).
  exists total, c. rewrite !list_lookup_fmap, Hcell. done.
Qed.

Lemma next_row_choiceRow above row width current chosen :
  next_row add above row width = Some (current, chosen) ->
  choiceRow width chosen.
Proof.
  intros Hrow. apply next_row_Some in Hrow as (_ & Hlen & Hcells).
  split; [done |]. intros x c Hc.
  destruct (Hcells x) as (total & c' & _ & Hc' & Hcell).
  { rewrite <- Hlen. by eapply lookup_lt_Some. }
  rewrite Hc in Hc'. injection Hc' as <-.
  by apply cell_Some in Hcell as [? _].
Qed.

Lemma forward_shape width (rows : list (list Z)) : forall above choices last choices',
  forward add width above rows choices = Some (last, choices') ->
  length above = width ->
  Forall (choiceRow width) choices ->
  length last = width
  ∧ length choices' = (length rows + length choices)%nat
  ∧ Forall (choiceRow width) choices'
  ∧ Forall (fun row => width <= length row)%nat rows.
Proof.
  induction rows as [|row rows IH]; intros above choices last choices'; simpl.
  - intros [= <- <-] Hlen Hch. by repeat split.
  - destruct (next_row add above row width) as [[current chosen]|] eqn:Hrow;
      [| done]. simpl.
    intros Hfwd Hlen Hch.
    pose proof (next_row_choiceRow _ _ _ _ _ Hrow) as Hnew.
    pose proof (next_row_Some _ _ _ _ _ Hrow) as (Hcur & _ & Hcells).
    apply IH in Hfwd as (Hlast & Hlen' & Hch' & Hrows);
      [| done | by constructor].
    split; [done |]. split; [simpl in Hlen'; lia |]. split; [done |].
    constructor; [| done].
    destruct width as [|w]; [lia |].
    destruct (Hcells w) as (total & c & _ & _ & Hcell); [lia |].
    apply cell_Some in Hcell as (_ & energy & _ & Hrowx & _).
    apply lookup_lt_Some in Hrowx. lia.
Qed.

Lemma backtrack_chain width (choices : list (list nat)) : forall x,
  Forall (choiceRow width) choices -> (x < width)%nat ->
  ∃ rest, backtrack choices x = Some rest
          ∧ length rest = length choices
          ∧ chain width x rest
          ∧ Forall (fun c => c < width)%nat rest.
Proof.
  induction choices as [|row choices IH]; intros x Hch Hx; simpl.
  - exists []. by repeat split.
  - apply Forall_cons in Hch as [[Hlen Hrow] Hch].
    destruct (lookup_lt_is_Some_2 row x) as [next Hnext]; [lia |].
    rewrite Hnext. simpl.
    pose proof (Hrow _ _ Hnext) as Hnb.
    destruct (IH next Hch) as (rest & -> & Hlen' & Hchain & Hall);
      [by eapply neighbors_lt |].
    simpl. exists (next :: rest). split; [done |]. split; [simpl; lia |].
    split; [done |]. constructor; [by eapply neighbors_lt | done].
Qed.

Lemma connected_snoc width (l : list nat) (x : nat) :
  connected width l ->
  (forall a, last l = Some a -> a ∈ neighbors width x) ->
  connected width (l ++ [x]).
Proof.
  intros Hl Hlast y a b Ha Hb.
  apply lookup_app_Some in Hb as [Hb|[Hlen Hb]].
  - rewrite lookup_app_l in Ha by (apply lookup_lt_Some in Hb; lia).
    by eapply Hl.
  - apply list_lookup_singleton_Some in Hb as [Hy <-].
    rewrite lookup_app_l in Ha by lia.
    apply Hlast. rewrite last_lookup.
    replace (pred (length l)) with y by lia. done.
Qed.

Lemma chain_connected width (rest : list nat) : forall x,
  chain width x rest -> connected width (reverse (x :: rest)).
Proof.
  induction rest as [|a rest IH]; intros x Hchain.
  - intros y ? ? Hy Hy'. by destruct y.
  - destruct Hchain as [Ha Hchain]. rewrite reverse_cons.
    apply connected_snoc; [by apply IH |].
    intros a'. rewrite reverse_cons, last_snoc. by intros [= <-].
Qed.

(** X14: when [find_seam] returns, it returns a seam: one column for every
    row of the image, every column inside the width of the first row, and the
    column of a row next to the column of the row below it: the same, or one
    to the left, or one to the right, the two edges of the image being next
    to each other. *)
Theorem find_seam_returns_a_seam (energies : list (list Z)) (seam : list nat) :
  find_seam add energies = Some seam ->
  ∃ first rows,
    energies = first :: rows
    ∧ length seam = length energies
    ∧ Forall (fun x => x < length first)%nat seam
    ∧ connected (length first) seam.
Proof.
  destruct energies as [|first rows]; [done |]. simpl.
  destruct (forward add (length first) first rows []) as [[last choices]|] eqn:Hfwd;
    [| done]. simpl.
  destruct (min_by_key (enumerate last)) as [[x v]|] eqn:Hmin; [| done]. simpl.
  destruct (backtrack choices x) as [rest|] eqn:Hback; [| done]. simpl.
  intros [= <-].
  apply forward_shape in Hfwd as (Hlast & Hlen & Hch & _); [| done | constructor].
  apply min_by_key_enumerate in Hmin as [Hx _]. apply lookup_lt_Some in Hx.
  rewrite Hlast in Hx.
  destruct (backtrack_chain _ choices x Hch Hx) as (rest' & Hrest & Hlen' & Hchain & Hall).
  rewrite Hback in Hrest. injection Hrest as <-.
  exists first, rows. split; [done |]. split.
  { rewrite length_reverse. simpl in *. lia. }
  split.
  - apply Forall_reverse. by constructor.
  - by apply chain_connected.
Qed.

(** X15: where [find_seam] panics: on an image without rows, on an image
    whose first row is empty, and on an image with a row shorter than the
    first.  (A longer row is read up to the width of the first.) *)
Theorem find_seam_panics :
  find_seam add [] = None
  ∧ (forall rows, find_seam add ([] :: rows) = None)
  ∧ (forall first rows row,
       row ∈ rows -> (length row < length first)%nat ->
       find_seam add (first :: rows) = None).
Proof.
  split; [done |]. split.
  - intros rows. simpl.
    destruct (forward add 0 [] rows []) as [[last choices]|] eqn:Hfwd; [| done].
    apply forward_shape in Hfwd as (Hlast & _); [| done | constructor].
    simpl. by destruct last.
  - intros first rows row Hin Hshort. simpl.
    destruct (forward add (length first) first rows []) as [[last choices]|] eqn:Hfwd;
      [| done].
    apply forward_shape in Hfwd as (_ & _ & _ & Hrows); [| done | constructor].
    apply (proj1 (Forall_forall _ _) Hrows) in Hin. lia.
Qed.

Lemma cell_is_Some above row width x :
  (forall a b, is_Some (add a b)) ->
  length above = width -> (x < width)%nat -> (x < length row)%nat ->
  is_Some (cell add above row width x).
Proof.
  intros Hadd Hlen Hx Hrow. unfold cell.
  destruct (mapM_is_Some_2 (fun n => above !! n) (neighbors width x))
    as [vals Hvals].
  { apply Forall_forall. intros n Hn. apply lookup_lt_is_Some_2.
    rewrite Hlen. by eapply neighbors_lt. }
  rewrite Hvals. simpl.
  pose proof (length_mapM _ _ _ Hvals) as Hthree.
  destruct (min_by_key_is_Some vals) as [[idx least] Hmin].
  { intros ->. discriminate. }
  rewrite Hmin. simpl.
  destruct (lookup_lt_is_Some_2 row x Hrow) as [energy ->]. simpl.
  destruct (Hadd energy least) as [total ->]. simpl.
  apply min_by_key_enumerate in Hmin as [Hidx _]. apply lookup_lt_Some in Hidx.
  destruct (lookup_lt_is_Some_2 (neighbors width x) idx) as [c ->]; [lia |].
  by eexists.
Qed.

Lemma forward_is_Some width (rows : list (list Z)) : forall above choices,
  (forall a b, is_Some (add a b)) ->
  length above = width ->
  Forall (fun row => width <= length row)%nat rows ->
  is_Some (forward add width above rows choices).
Proof.
  induction rows as [|row rows IH]; intros above choices Hadd Hlen Hrows; simpl.
  - by eexists.
  - apply Forall_cons in Hrows as [Hrow Hrows].
    destruct (mapM_is_Some_2 (cell add above row width) (seq 0 width))
      as [cells Hcells].
    { apply Forall_forall. intros x Hx. apply list_elem_of_lookup in Hx as [i Hi].
      apply lookup_seq in Hi as [-> Hi]. apply cell_is_Some; [done | done | lia | lia]. }
    unfold next_row. rewrite Hcells. simpl. apply IH; [done | | done].
    rewrite length_fmap. apply length_mapM in Hcells.
    by rewrite length_seq in Hcells.
Qed.

(** X16: [find_seam] returns a seam for every image that has a row, whose
    first row has a pixel and whose other rows are at least as wide as the
    first, as long as no addition of energies panics. *)
Theorem find_seam_returns (first : list Z) (rows : list (list Z)) :
  (forall a b, is_Some (add a b)) ->
  (0 < length first)%nat ->
  Forall (fun row => length first <= length row)%nat rows ->
  is_Some (find_seam add (first :: rows)).
Proof.
  intros Hadd Hwidth Hrows. simpl.
  destruct (forward_is_Some (length first) rows first [] Hadd eq_refl Hrows)
    as [[last choices] Hfwd].
  rewrite Hfwd. simpl.
  apply forward_shape in Hfwd as (Hlast & _ & Hch & _); [| done | constructor].
  destruct (min_by_key_is_Some last) as [[x v] Hmin].
  { intros ->. simpl in Hlast. lia. }
  rewrite Hmin. simpl.
  apply min_by_key_enumerate in Hmin as [Hx _]. apply lookup_lt_Some in Hx.
  rewrite Hlast in Hx.
  destruct (backtrack_chain _ choices x Hch Hx) as (rest & -> & _).
  by eexists.
Qed.

(** *** The seam is one of least energy *)

Lemma energyAlong_cons row (rows : list (list Z)) x (path : list nat) :
  energyAlong (row :: rows) (x :: path)
  = default 0 (row !! x) + energyAlong rows path.
Proof. reflexivity. Qed.

Lemma chain_lt width (rest : list nat) : forall x,
  (x < width)%nat -> chain width x rest -> Forall (fun c => c < width)%nat rest.
Proof.
  induction rest as [|a rest IH]; intros x Hx Hchain; [constructor |].
  destruct Hchain as [Ha Hchain].
  assert (a < width)%nat by by eapply neighbors_lt.
  constructor; [done |]. by eapply IH.
Qed.

Lemma tables_first (first : list Z) :
  tables (length first) [first] first [].
Proof.
  split; [done |]. split; [constructor |]. split.
  - intros x v Hx. exists []. split; [done |].
    rewrite energyAlong_cons, Hx. simpl. unfold energyAlong. simpl. lia.
  - intros x v rest Hx Hlen _. destruct rest; [| done].
    rewrite energyAlong_cons, Hx. simpl. unfold energyAlong. simpl. lia.
Qed.

Lemma tables_next width below above choices row current chosen :
  (forall energy least total,
     energy ∈ row -> least ∈ above ->
     add energy least = Some total -> total = energy + least) ->
  tables width below above choices ->
  next_row add above row width = Some (current, chosen) ->
  tables width (row :: below) current (chosen :: choices).
Proof.
  intros Hadd (Hlen & Hch & Hhas & Hleast) Hrow.
  pose proof (next_row_choiceRow _ _ _ _ _ Hrow) as Hnew.
  apply next_row_Some in Hrow as (Hcur & Hchosen & Hcells).
  split; [done |]. split; [by constructor |]. split.
  - intros x v Hx.
    destruct (Hcells x) as (total & c & Hx' & Hc & Hcell).
    { rewrite <- Hcur. by eapply lookup_lt_Some. }
    rewrite Hx in Hx'. injection Hx' as <-.
    apply cell_Some in Hcell as (_ & energy & least & Henergy & Habove & Hsum & _).
    apply Hadd in Hsum as ->; [| by eapply list_elem_of_lookup_2 ..].
    destruct (Hhas c least Habove) as (rest & Hrest & Hpath).
    exists (c :: rest). simpl. rewrite Hc. simpl. rewrite Hrest. simpl.
    split; [done |]. rewrite energyAlong_cons, Henergy, Hpath. done.
  - intros x v rest Hx Hrest Hchain.
    destruct rest as [|a rest]; [done |]. destruct Hchain as [Ha Hchain].
    assert (Hxw : (x < width)%nat) by (rewrite <- Hcur; by eapply lookup_lt_Some).
    destruct (Hcells x Hxw) as (total & c & Hx' & Hc & Hcell).
    rewrite Hx in Hx'. injection Hx' as <-.
    apply cell_Some in Hcell as (_ & energy & least & Henergy & Habove & Hsum & Hmin).
    apply Hadd in Hsum as ->; [| by eapply list_elem_of_lookup_2 ..].
    destruct (lookup_lt_is_Some_2 above a) as [va Hva].
    { rewrite Hlen. by eapply neighbors_lt. }
    pose proof (Hmin a va Ha Hva) as Hle.
    pose proof (Hleast a va rest Hva) as Hpath.
    rewrite energyAlong_cons, Henergy. simpl.
    simpl in Hrest. specialize (Hpath ltac:(lia) Hchain). lia.
Qed.

(** An addition of a fixed width, whether it wraps around or panics beyond
    its greatest value [max], is exact up to [max].  With energies from 0
    to [most], the sums of a turn of the outer loop are at most [most]
    above those of the turn before. *)
Lemma next_row_bounded (max most bound : Z) width above row current chosen :
  (forall a b t, 0 <= a -> 0 <= b -> a + b <= max ->
                 add a b = Some t -> t = a + b) ->
  Forall (fun v => 0 <= v <= bound) above ->
  Forall (fun e => 0 <= e <= most) row ->
  bound + most <= max ->
  next_row add above row width = Some (current, chosen) ->
  (forall energy least total,
     energy ∈ row -> least ∈ above ->
     add energy least = Some total -> total = energy + least)
  ∧ Forall (fun v => 0 <= v <= bound + most) current.
Proof.
  intros Hadd Habove Hrow Hmax Hnext.
  assert (Hexact : forall energy least total,
            energy ∈ row -> least ∈ above ->
            add energy least = Some total -> total = energy + least).
  { intros energy least total He Hl Hsum.
    apply (proj1 (Forall_forall _ _) Hrow) in He.
    apply (proj1 (Forall_forall _ _) Habove) in Hl.
    apply Hadd in Hsum; lia. }
  split; [done |].
  apply next_row_Some in Hnext as (Hcur & _ & Hcells).
  apply Forall_lookup. intros x v Hx.
  destruct (Hcells x) as (total & c & Hx' & _ & Hcell).
  { rewrite <- Hcur. by eapply lookup_lt_Some. }
  rewrite Hx in Hx'. injection Hx' as <-.
  apply cell_Some in Hcell as (_ & energy & least & Henergy & Hleast & Hsum & _).
  apply list_elem_of_lookup_2 in Henergy, Hleast.
  pose proof (Hexact _ _ _ Henergy Hleast Hsum) as ->.
  apply (proj1 (Forall_forall _ _) Hrow) in Henergy.
  apply (proj1 (Forall_forall _ _) Habove) in Hleast. lia.
Qed.

Lemma forward_tables (max most : Z) width (rows : list (list Z)) :
  forall bound below above choices last choices',
  (forall a b t, 0 <= a -> 0 <= b -> a + b <= max ->
                 add a b = Some t -> t = a + b) ->
  0 <= most ->
  Forall (Forall (fun e => 0 <= e <= most)) rows ->
  Forall (fun v => 0 <= v <= bound) above ->
  bound + most * Z.of_nat (length rows) <= max ->
  tables width below above choices ->
  forward add width above rows choices = Some (last, choices') ->
  tables width (reverse rows ++ below) last choices'.
Proof.
  induction rows as [|row rows IH];
    intros bound below above choices last choices' Hadd Hmost Hrows Habove Hmax Ht;
    simpl.
  - by intros [= <- <-].
  - destruct (next_row add above row width) as [[current chosen]|] eqn:Hrow;
      [| done]. simpl.
    apply Forall_cons in Hrows as [Hfirst Hrows].
    simpl length in Hmax. rewrite Nat2Z.inj_succ, Z.mul_succ_r in Hmax.
    assert (Hstep : bound + most <= max).
    { assert (0 <= most * Z.of_nat (length rows)) by (apply Z.mul_nonneg_nonneg; lia).
      lia. }
    destruct (next_row_bounded max most bound _ _ _ _ _ Hadd Habove Hfirst Hstep Hrow)
      as [Hexact Hcurrent].
    intros Hfwd. rewrite reverse_cons, <- app_assoc. simpl.
    eapply (IH (bound + most)); [done | done | done | exact Hcurrent | lia | | exact Hfwd].
    by eapply tables_next.
Qed.

Lemma foldr_add_snoc (l : list Z) (a : Z) :
  foldr Z.add 0 (l ++ [a]) = foldr Z.add 0 l + a.
Proof. induction l as [|b l IH]; simpl; lia. Qed.

Lemma energyAlong_reverse (energies : list (list Z)) : forall path,
  length path = length energies ->
  energyAlong (reverse energies) (reverse path) = energyAlong energies path.
Proof.
  induction energies as [|row energies IH]; intros [|x path] Hlen;
    try done.
  rewrite !reverse_cons. unfold energyAlong.
  rewrite zip_with_app by (rewrite !length_reverse; simpl in Hlen; lia).
  simpl zip_with at 2. rewrite foldr_add_snoc. simpl.
  fold (energyAlong (reverse energies) (reverse path)).
  rewrite IH by (simpl in Hlen; lia). unfold energyAlong. lia.
Qed.

Lemma connected_chain width (rest : list nat) : forall x,
  connected width (reverse (x :: rest)) -> chain width x rest.
Proof.
  induction rest as [|a rest IH]; intros x Hconn; [done |].
  rewrite reverse_cons in Hconn. split.
  - apply (Hconn (pred (length (reverse (a :: rest))))).
    + rewrite lookup_app_l by (rewrite length_reverse; simpl; lia).
      rewrite <- last_lookup, reverse_cons. apply last_snoc.
    + rewrite length_reverse. simpl.
      rewrite lookup_app_r by (rewrite length_reverse; simpl; lia).
      rewrite length_reverse. simpl. by rewrite Nat.sub_diag.
  - apply IH. intros y p q Hp Hq. apply (Hconn y).
    + rewrite lookup_app_l; [done |]. by eapply lookup_lt_Some.
    + rewrite lookup_app_l; [done |]. by eapply lookup_lt_Some.
Qed.

(** X17: with an addition of a fixed width, exact up to its greatest value
    [max] whatever it does beyond (panic or wrap around), and an image whose
    energies lie between 0 and [most], with [most] times the number of rows
    at most [max], so that no sum overflows: the seam that [find_seam]
    returns is one of least energy, no connected path through the image,
    one column per row, has a smaller sum of energies. *)
Theorem find_seam_least_energy (max most : Z) (first : list Z)
    (rows : list (list Z)) (seam path : list nat) :
  (forall a b t, 0 <= a -> 0 <= b -> a + b <= max ->
                 add a b = Some t -> t = a + b) ->
  Forall (Forall (fun e => 0 <= e <= most)) (first :: rows) ->
  most * Z.of_nat (length (first :: rows)) <= max ->
  find_seam add (first :: rows) = Some seam ->
  length path = length (first :: rows) ->
  Forall (fun x => x < length first)%nat path ->
  connected (length first) path ->
  energyAlong (first :: rows) seam <= energyAlong (first :: rows) path.
Proof.
  intros Hadd Hrange Hmax Hseam Hlen Hin Hconn. simpl in Hseam.
  destruct (forward add (length first) first rows []) as [[last choices]|] eqn:Hfwd;
    [| done]. simpl in Hseam.
  destruct (min_by_key (enumerate last)) as [[x v]|] eqn:Hmin; [| done].
  simpl in Hseam.
  destruct (backtrack choices x) as [rest|] eqn:Hback; [| done].
  simpl in Hseam. injection Hseam as <-.
  pose proof (forward_shape _ _ _ _ _ _ Hfwd eq_refl ltac:(constructor))
    as (Hwidth & Hchl & _).
  apply Forall_cons in Hrange as [Hfirst Hrows].
  assert (Hmost : 0 <= most).
  { pose proof (proj1 (min_by_key_enumerate _ _ _ Hmin)) as Hx.
    apply lookup_lt_Some in Hx. rewrite Hwidth in Hx.
    destruct (lookup_lt_is_Some_2 first x Hx) as [e He].
    apply (Forall_lookup_1 _ _ _ _ Hfirst) in He. lia. }
  simpl length in Hmax. rewrite Nat2Z.inj_succ, Z.mul_succ_r in Hmax.
  apply (forward_tables max most _ _ most [first] _ _ _ _ Hadd Hmost Hrows Hfirst
           ltac:(lia) (tables_first first)) in Hfwd
    as (Hlast & Hch & Hhas & Hleast).
  change (reverse rows ++ [first]) with (reverse rows ++ reverse [first]) in *.
  rewrite <- reverse_app in *. change ([first] ++ rows) with (first :: rows) in *.
  apply min_by_key_enumerate in Hmin as [Hx Hmin].
  destruct (Hhas x v Hx) as (rest' & Hrest' & Hv).
  rewrite Hback in Hrest'. injection Hrest' as <-.
  assert (Hxw : (x < length first)%nat)
    by (rewrite <- Hlast; by eapply lookup_lt_Some).
  destruct (backtrack_chain _ choices x Hch Hxw) as (rest'' & Hrest'' & Hlen'' & _).
  rewrite Hback in Hrest''. injection Hrest'' as <-.
  rewrite <- (energyAlong_reverse (first :: rows) (reverse (x :: rest)))
    by (rewrite length_reverse; simpl in *; lia).
  rewrite reverse_involutive, Hv.
  rewrite <- (energyAlong_reverse (first :: rows) path) by done.
  destruct (reverse path) as [|b above] eqn:Hrev.
  { apply (f_equal length) in Hrev. rewrite length_reverse in Hrev.
    simpl in *. lia. }
  assert (Hpath : path = reverse (b :: above))
    by (rewrite <- Hrev; by rewrite reverse_involutive).
  assert (Hb : (b < length first)%nat).
  { apply (proj1 (Forall_forall _ _) Hin). rewrite Hpath.
    apply elem_of_reverse, list_elem_of_here. }
  destruct (lookup_lt_is_Some_2 last b) as [vb Hvb]; [lia |].
  pose proof (Hmin b vb Hvb) as Hle.
  assert (Habove : length above = length choices).
  { apply (f_equal length) in Hrev. rewrite length_reverse in Hrev.
    simpl in *. lia. }
  pose proof (Hleast b vb above Hvb Habove) as Hbest.
  rewrite Hpath in Hconn. apply connected_chain in Hconn.
  specialize (Hbest Hconn). lia.
Qed.

End SeamFacts.

Example image_seam :
  SeamCarving.find_seam Demo.plus Demo.image = Some [1; 2; 1]%nat
  ∧ SeamCarving.energyAlong Demo.image [1; 2; 1]%nat = 6
  ∧ SeamCarving.find_seam Demo.plus8 [[200; 250]; [100; 90]] = None.
Proof. by vm_compute. Qed.

(** Where a sum wraps around, the seam returned need not be one of least
    energy: 250 + 10 counts as 4. *)
Example wrapped_seam :
  SeamCarving.find_seam Demo.wrap8 [[200; 10]; [100; 250]] = Some [1; 1]%nat
  ∧ SeamCarving.energyAlong [[200; 10]; [100; 250]] [1; 1]%nat = 260
  ∧ SeamCarving.energyAlong [[200; 10]; [100; 250]] [1; 0]%nat = 110.
Proof. by vm_compute. Qed.

Lemma find_seam_returns_a_seam_witness :
  ∃ first rows,
    Demo.image = first :: rows
    ∧ length [1; 2; 1]%nat = length Demo.image
    ∧ Forall (fun x => x < length first)%nat [1; 2; 1]%nat
    ∧ SeamCarving.connected (length first) [1; 2; 1]%nat.
Proof.
  apply (find_seam_returns_a_seam Demo.plus Demo.image [1; 2; 1]%nat).
  vm_compute. reflexivity.
Defined.

Lemma find_seam_panics_witness :
  SeamCarving.find_seam Demo.plus [[1; 2]; [3]] = None.
Proof.
  apply (proj2 (proj2 (find_seam_panics Demo.plus)) [1; 2] [[3]] [3]).
  - apply list_elem_of_here.
  - simpl. lia.
Defined.

Lemma find_seam_returns_witness :
  is_Some (SeamCarving.find_seam Demo.plus Demo.image).
Proof.
  apply (find_seam_returns Demo.plus [5; 1; 9] [[4; 8; 2]; [7; 3; 6]]).
  - intros a b. by eexists.
  - simpl. lia.
  - repeat constructor.
Defined.

Lemma find_seam_least_energy_witness :
  SeamCarving.find_seam Demo.wrap8 Demo.image = Some [1; 2; 1]%nat
  ∧ SeamCarving.energyAlong Demo.image [1; 2; 1]%nat
    <= SeamCarving.energyAlong Demo.image [0; 0; 1]%nat.
Proof.
  split; [vm_compute; reflexivity |].
  apply (find_seam_least_energy Demo.wrap8 255 9 [5; 1; 9] [[4; 8; 2]; [7; 3; 6]]).
  - intros a b t Ha Hb Hsum [= <-]. apply Z.mod_small. lia.
  - repeat constructor; lia.
  - simpl. lia.
  - vm_compute. reflexivity.
  - reflexivity.
  - repeat constructor.
  - intros y a b Ha Hb.
    destruct y as [|[|y]]; simpl in Ha, Hb; simplify_eq; vm_compute;
      repeat constructor.
Defined.

(** ** The redaction hook *)

Section RedactFacts.

Import Redact.

Lemma hasSpace_drop (n : nat) : forall s,
  hasSpace (JS.drop n s) = true -> hasSpace s = true.
Proof.
  induction n as [|n IH]; intros s; [done |].
  destruct s as [|c s]; [done |]. simpl. intros H.
  rewrite (IH _ H). apply orb_true_r.
Qed.

Lemma commandHere_hasSpace (cmd s : string) :
  commandHere cmd s = true -> hasSpace s = true.
Proof.
  unfold commandHere. intros [_ H]%andb_prop.
  apply (hasSpace_drop (String.length cmd)).
  destruct (JS.drop (String.length cmd) s) as [|c rest]; [done |].
  simpl. by rewrite H.
Qed.

Lemma afterSpaces_hasSpace (cmd s : string) :
  afterSpaces cmd s = true -> hasSpace s = true.
Proof.
  induction s as [|c s IH]; simpl.
  - rewrite orb_false_r. apply commandHere_hasSpace.
  - intros [H|H]%orb_prop; [by apply (commandHere_hasSpace cmd (String c s)) |].
    apply andb_prop in H as [-> _]. done.
Qed.

Lemma somewhere_hasSpace (sep cmd s : string) :
  somewhere sep cmd s = true -> hasSpace s = true.
Proof.
  induction s as [|c s IH]; simpl.
  - rewrite orb_false_r. intros [_ H]%andb_prop.
    apply afterSpaces_hasSpace in H. by apply hasSpace_drop in H.
  - intros [H|H]%orb_prop.
    + apply andb_prop in H as [_ H]. apply afterSpaces_hasSpace in H.
      by apply (hasSpace_drop _ (String c s)) in H.
    + rewrite (IH H). apply orb_true_r.
Qed.

(** X18: a command without white space is never taken for a command that
    reads a file, whatever it runs: every pattern asks for a white space
    after the name of the command. *)
Theorem isFileReadCommand_needs_space (command : string) :
  asciiOnly command = true ->
  hasSpace command = false ->
  isFileReadCommand command = false.
Proof.
  intros _ Hspace. unfold isFileReadCommand.
  apply not_true_is_false. intros H.
  apply existsb_exists in H as (cmd & _ & H).
  apply existsb_exists in H as (p & Hp & H).
  assert (hasSpace command = true); [| congruence].
  simpl in Hp. destruct Hp as [<-|[<-|[<-|[<-|[]]]]].
  - by eapply commandHere_hasSpace.
  - by eapply somewhere_hasSpace.
  - by eapply somewhere_hasSpace.
  - by eapply somewhere_hasSpace.
Qed.

Lemma somewhere_mentions (sep : string) (c : ascii) (tail cmd s : string) :
  sep = String c tail ->
  somewhere sep cmd s = true -> mentions c s = true.
Proof.
  intros ->. induction s as [|x s IH]; simpl; [done |].
  intros [H|H]%orb_prop.
  - apply andb_prop in H as [H _].
    destruct (ascii_dec c x) as [->|]; [| done].
    by rewrite Ascii.eqb_refl.
  - rewrite (IH H). apply orb_true_r.
Qed.

Lemma existsb_pointwise {A} (f g : A -> bool) (l : list A) :
  (forall x, f x = g x) -> existsb f l = existsb g l.
Proof. intros H. induction l as [|x l IH]; simpl; [done |]. by rewrite H, IH. Qed.

(** X19: for a command without [|], [;] and [&], only its beginning
    counts: it is taken for a command that reads a file exactly when it
    begins with one of the listed names followed by white space.  So a
    command that begins with white space is not, whatever follows. *)
Theorem isFileReadCommand_without_separator (command : string) :
  asciiOnly command = true ->
  mentions "|"%char command = false ->
  mentions ";"%char command = false ->
  mentions "&"%char command = false ->
  isFileReadCommand command
  = existsb (fun cmd => commandHere cmd command) FILE_READ_COMMANDS
  ∧ (forall c rest, command = String c rest -> isSpace c = true ->
     isFileReadCommand command = false).
Proof.
  intros _ Hpipe Hsemi Hamp.
  assert (Heq : isFileReadCommand command
                = existsb (fun cmd => commandHere cmd command) FILE_READ_COMMANDS).
  { unfold isFileReadCommand. apply existsb_pointwise. intros cmd. simpl.
    assert (H1 : somewhere "|" cmd command = false).
    { apply not_true_is_false. intros H.
      apply (somewhere_mentions _ _ _ _ _ eq_refl) in H. congruence. }
    assert (H2 : somewhere ";" cmd command = false).
    { apply not_true_is_false. intros H.
      apply (somewhere_mentions _ _ _ _ _ eq_refl) in H. congruence. }
    assert (H3 : somewhere "&&" cmd command = false).
    { apply not_true_is_false. intros H.
      apply (somewhere_mentions _ _ _ _ _ eq_refl) in H. congruence. }
    rewrite H1, H2, H3. by rewrite !orb_false_r. }
  split; [exact Heq |].
  intros c rest -> Hc. rewrite Heq.
  apply not_true_is_false. intros H.
  apply existsb_exists in H as (cmd & Hcmd & H).
  unfold commandHere in H. apply andb_prop in H as [H _].
  simpl in Hcmd.
  repeat (destruct Hcmd as [<-|Hcmd];
          [rewrite prefix_cons in H;
           destruct (ascii_dec _ c) as [<-|]; [by vm_compute in Hc | done] |]).
  done.
Qed.

Lemma prefix_app (a b : string) : String.prefix a (a +:+ b) = true.
Proof.
  induction a as [|c a IH]; [by destruct b |].
  rewrite append_cons, prefix_cons. by destruct (ascii_dec c c).
Qed.

Lemma drop_app (a b : string) : JS.drop (String.length a) (a +:+ b) = b.
Proof. induction a as [|c a IH]; [done |]. by rewrite append_cons. Qed.

Lemma commandHere_app (cmd : string) (c : ascii) (rest : string) :
  isSpace c = true -> commandHere cmd (cmd +:+ String c rest) = true.
Proof.
  intros Hc. unfold commandHere. by rewrite prefix_app, drop_app, Hc.
Qed.

Lemma afterSpaces_app (cmd spaces s : string) :
  (forall c, mentions c spaces = true -> isSpace c = true) ->
  commandHere cmd s = true ->
  afterSpaces cmd (spaces +:+ s) = true.
Proof.
  intros Hall Hcmd. induction spaces as [|x spaces IH].
  - change (EmptyString +:+ s) with s. destruct s; simpl; by rewrite Hcmd.
  - rewrite append_cons. simpl.
    rewrite (Hall x) by (simpl; by rewrite Ascii.eqb_refl).
    rewrite IH; [apply orb_true_r |].
    intros c Hc. apply Hall. simpl. rewrite Hc. apply orb_true_r.
Qed.

Lemma somewhere_here (sep cmd s : string) :
  String.prefix sep s && afterSpaces cmd (JS.drop (String.length sep) s) = true ->
  somewhere sep cmd s = true.
Proof.
  intros H.
  assert (Heq : somewhere sep cmd s
                = (String.prefix sep s
                   && afterSpaces cmd (JS.drop (String.length sep) s))
                  || match s with
                     | String _ rest => somewhere sep cmd rest
                     | EmptyString => false
                     end) by by destruct s.
  by rewrite Heq, H.
Qed.

Lemma somewhere_app (sep cmd before s : string) :
  afterSpaces cmd s = true ->
  somewhere sep cmd (before +:+ sep +:+ s) = true.
Proof.
  intros Hs. induction before as [|x before IH].
  - change (EmptyString +:+ sep +:+ s) with (sep +:+ s).
    apply somewhere_here. by rewrite prefix_app, drop_app, Hs.
  - rewrite append_cons. simpl. rewrite IH. apply orb_true_r.
Qed.

(** X20: what is taken for a command that reads a file: one of the listed
    names followed by white space, at the very beginning of the command, or
    after a [|], a [;] or a [&&] and any white space. *)
Theorem isFileReadCommand_detects (cmd : string) (c : ascii) (rest : string) :
  cmd ∈ FILE_READ_COMMANDS ->
  isSpace c = true ->
  isFileReadCommand (cmd +:+ String c rest) = true
  ∧ forall before sep spaces,
      sep ∈ ["|"; ";"; "&&"] ->
      (forall x, mentions x spaces = true -> isSpace x = true) ->
      isFileReadCommand (before +:+ sep +:+ spaces +:+ cmd +:+ String c rest) = true.
Proof.
  intros Hcmd Hc. apply list_elem_of_In in Hcmd. split.
  - unfold isFileReadCommand. apply existsb_exists. exists cmd. split; [done |].
    simpl. by rewrite commandHere_app.
  - intros before sep spaces Hsep Hspaces.
    unfold isFileReadCommand. apply existsb_exists. exists cmd. split; [done |].
    assert (Hs : somewhere sep cmd
                   (before +:+ sep +:+ spaces +:+ cmd +:+ String c rest) = true).
    { apply somewhere_app, afterSpaces_app; [done |].
      by apply commandHere_app. }
    simpl.
    apply elem_of_cons in Hsep as [->|Hsep];
      [| apply elem_of_cons in Hsep as [->|Hsep];
         [| apply list_elem_of_singleton in Hsep as ->]];
      rewrite Hs; by rewrite ?orb_true_r.
Qed.

(** [replace] with a text for a pattern rewrites the first occurrence of
    the pattern, the one [indexOf] finds, and leaves a text without the
    pattern as it is. *)
Lemma replace_indexOf (pat rep : string) (s : string) :
  JS.replace pat rep s
  = match indexOf pat s with
    | Some i => take i s +:+ rep +:+ JS.drop (i + String.length pat) s
    | None => s
    end.
Proof.
  induction s as [|c s IH].
  - by destruct pat.
  - rewrite replace_cons.
    assert (Hindex : indexOf pat (String c s)
                     = if String.prefix pat (String c s) then Some 0%nat
                       else S <$> indexOf pat s) by reflexivity.
    rewrite Hindex. destruct (String.prefix pat (String c s)); [reflexivity |].
    rewrite IH. by destruct (indexOf pat s).
Qed.

Lemma take_app (a b : string) : take (String.length a) (a +:+ b) = a.
Proof.
  induction a as [|c a IH]; [by destruct b |].
  rewrite append_cons. simpl. by rewrite IH.
Qed.

Lemma drop_plus (n m : nat) : forall s,
  JS.drop (n + m) s = JS.drop m (JS.drop n s).
Proof.
  induction n as [|n IH]; intros s; [done |].
  destruct s as [|c s]; simpl; [by destruct m | apply IH].
Qed.

(** A text that holds the pattern has a first occurrence of it, not after
    any other. *)
Lemma indexOf_app (pat before after : string) :
  ∃ i, indexOf pat (before +:+ pat +:+ after) = Some i
       ∧ (i <= String.length before)%nat.
Proof.
  induction before as [|c before IH].
  - exists 0%nat. change (EmptyString +:+ pat +:+ after) with (pat +:+ after).
    split; [| done].
    assert (Hindex : forall s, String.prefix pat s = true -> indexOf pat s = Some 0%nat).
    { intros s Hs. destruct s as [|c s]; [by destruct pat |].
      change (indexOf pat (String c s))
        with (if String.prefix pat (String c s) then Some 0%nat
              else S <$> indexOf pat s).
      by rewrite Hs. }
    apply Hindex, prefix_app.
  - destruct IH as (i & Hi & Hle). rewrite append_cons.
    assert (Hindex : indexOf pat (String c (before +:+ pat +:+ after))
                     = if String.prefix pat (String c (before +:+ pat +:+ after))
                       then Some 0%nat
                       else S <$> indexOf pat (before +:+ pat +:+ after))
      by reflexivity.
    rewrite Hindex, Hi.
    destruct (String.prefix pat _); [exists 0%nat | exists (S i)];
      (split; [done | simpl; lia]).
Qed.

Lemma includes_app_r (pat a b : string) :
  JS.includes pat b = true -> JS.includes pat (a +:+ b) = true.
Proof.
  intros Hb. induction a as [|c a IH]; [done |].
  rewrite append_cons, includes_cons, IH. by destruct (String.prefix _ _).
Qed.

Context (extractSensitiveFilePath : string -> option string).
Context (isSensitiveFile : string -> bool).
Context (createRedactedFile : string -> option string).

(** X21: [handleBashTool] answers only for a command that is taken to read
    a file, with the decision [allow], and rewrites in it the first mention
    of the sensitive path, wherever it is, and nothing else (the redacted
    path being a text without [$], which [replace] takes as it is).  A
    command that does not hold the path as it is spelled is passed on
    unchanged, and allowed.  A command that holds it has a first mention;
    what follows that mention is passed on as it is, so a command that
    names the file a second time still names the file itself there. *)
Theorem handleBashTool_rewrites_first_mention (command : string) (out : HookOutput) :
  handleBashTool extractSensitiveFilePath isSensitiveFile createRedactedFile
    (Some command) = Some out ->
  isFileReadCommand command = true
  ∧ permissionDecision out = "allow"
  ∧ ∃ filePath redactedPath,
      extractSensitiveFilePath command = Some filePath
      ∧ createRedactedFile filePath = Some redactedPath
      ∧ isSensitiveFile filePath = true
      ∧ (JS.includes "$" redactedPath = false ->
         match indexOf filePath command with
         | None => updatedCommand out = command
         | Some i =>
             updatedCommand out
             = take i command +:+ redactedPath
               +:+ JS.drop (i + String.length filePath) command
         end)
      ∧ forall before after,
          command = before +:+ filePath +:+ after ->
          JS.includes "$" redactedPath = false ->
          (∃ i, indexOf filePath command = Some i
                ∧ (i <= String.length before)%nat)
          ∧ (indexOf filePath command = Some (String.length before) ->
             updatedCommand out = before +:+ redactedPath +:+ after
             ∧ (JS.includes filePath after = true ->
                JS.includes filePath (updatedCommand out) = true)).
Proof.
  unfold handleBashTool.
  destruct (present (Some command)) as [command'|] eqn:Hc; [| done].
  assert (command' = command) as -> by (destruct command; simpl in Hc; by simplify_eq).
  destruct (isFileReadCommand command) eqn:Hread; [| done]. simpl.
  destruct (present (extractSensitiveFilePath command)) as [filePath|] eqn:Hf;
    [| done].
  destruct (isSensitiveFile filePath) eqn:Hs; [| done]. simpl.
  destruct (present (createRedactedFile filePath)) as [redactedPath|] eqn:Hr;
    [| done].
  intros [= <-]. split; [done |]. split; [done |].
  exists filePath, redactedPath.
  assert (Hf' : extractSensitiveFilePath command = Some filePath).
  { destruct (extractSensitiveFilePath command) as [[|]|]; simpl in Hf; by simplify_eq. }
  assert (Hr' : createRedactedFile filePath = Some redactedPath).
  { destruct (createRedactedFile filePath) as [[|]|]; simpl in Hr; by simplify_eq. }
  split; [done |]. split; [done |]. split; [done |]. simpl. split.
  { intros _. rewrite replace_indexOf. by destruct (indexOf filePath command). }
  intros before after -> _. split; [apply indexOf_app |].
  intros Hfirst. rewrite replace_indexOf, Hfirst.
  rewrite take_app, drop_plus, drop_app, drop_app.
  split; [done |]. intros Hafter.
  rewrite <- append_assoc. by apply includes_app_r.
Qed.

End RedactFacts.

Example hook_examples :
  List.map Redact.isFileReadCommand
    ["cat .env"; " cat .env"; "cat<.env"; "sudo cat .env"; "ls | grep KEY .env"]
  = [true; false; false; false; true]
  ∧ Redact.handleBashTool Demo.extractEnv Demo.isEnv Demo.redactEnv
      (Some "cat .env .env")
    = Some {| Redact.permissionDecision := "allow";
              Redact.updatedCommand := "cat /tmp/redacted-env .env" |}
  ∧ Redact.handleBashTool Demo.extractEnv Demo.isEnv Demo.redactEnv
      (Some "cat<.env")
    = None
  ∧ Redact.handleBashTool Demo.extractEnv Demo.isEnv Demo.redactEnv
      (Some "cat ./.env")
    = Some {| Redact.permissionDecision := "allow";
              Redact.updatedCommand := "cat .//tmp/redacted-env" |}.
Proof. by vm_compute. Qed.

Lemma isFileReadCommand_needs_space_witness :
  Redact.isFileReadCommand "cat<.env" = false.
Proof.
  apply isFileReadCommand_needs_space; vm_compute; reflexivity.
Defined.

Lemma isFileReadCommand_without_separator_witness :
  Redact.isFileReadCommand " cat .env" = false.
Proof.
  apply (proj2 (isFileReadCommand_without_separator " cat .env"
                  eq_refl eq_refl eq_refl eq_refl) " "%char "cat .env");
    reflexivity.
Defined.

Lemma isFileReadCommand_detects_witness :
  Redact.isFileReadCommand "ls |  grep KEY .env" = true.
Proof.
  apply (proj2 (isFileReadCommand_detects "grep" " "%char "KEY .env"
                  ltac:(vm_compute; repeat constructor) eq_refl)
           "ls " "|" "  ").
  - repeat constructor.
  - intros x Hx.
    destruct x as [[] [] [] [] [] [] [] []];
      vm_compute in Hx; try discriminate Hx; reflexivity.
Defined.

Lemma handleBashTool_rewrites_first_mention_witness :
  Redact.handleBashTool Demo.extractEnv Demo.isEnv Demo.redactEnv
    (Some "cat a.txt .env .env")
  = Some {| Redact.permissionDecision := "allow";
            Redact.updatedCommand := "cat a.txt /tmp/redacted-env .env" |}
  ∧ Redact.updatedCommand
      {| Redact.permissionDecision := "allow";
         Redact.updatedCommand := "cat a.txt /tmp/redacted-env .env" |}
    = "cat a.txt " +:+ "/tmp/redacted-env" +:+ " .env"
  ∧ JS.includes ".env" "cat a.txt /tmp/redacted-env .env" = true.
Proof.
  assert (Hrun : Redact.handleBashTool Demo.extractEnv Demo.isEnv Demo.redactEnv
                   (Some "cat a.txt .env .env")
                 = Some {| Redact.permissionDecision := "allow";
                           Redact.updatedCommand :=
                             "cat a.txt /tmp/redacted-env .env" |})
    by (vm_compute; reflexivity).
  split; [exact Hrun |].
  destruct (handleBashTool_rewrites_first_mention Demo.extractEnv Demo.isEnv
              Demo.redactEnv "cat a.txt .env .env" _ Hrun)
    as (_ & _ & filePath & redactedPath & Hpath & Hredacted & _ & _ & Hfirst).
  assert (filePath = ".env") as ->
    by (vm_compute in Hpath; by injection Hpath as <-).
  assert (redactedPath = "/tmp/redacted-env") as ->
    by (vm_compute in Hredacted; by injection Hredacted as <-).
  destruct (Hfirst "cat a.txt " " .env" eq_refl eq_refl) as [_ Hrewrite].
  destruct (Hrewrite eq_refl) as [Hout Hsecond].
  split; [exact Hout | exact (Hsecond eq_refl)].
Defined.
